(** * Pianoroll utilities: a shallow embedding of [pianoroll_utils.py]

    The Python module manipulates dense numpy arrays.  An array is modelled
    by its shape together with its contents as nested lists; the numpy
    primitives the module uses (slicing, [hstack], [pad], [diff], [nonzero],
    boolean-mask indexing, [squeeze], [reshape]) are given their numpy
    meaning on that representation, including the exceptions they raise.
    Array entries are rationals: they stand for the numeric entries of the
    array, with [astype(int)] truncating towards zero.  The float the
    module computes itself, the quotient [num_ticks / ticks_per_unit], is
    rounded to binary64; the float64 means numpy computes for
    [create_units] are a parameter of that function. *)

From Stdlib Require Import String.
From Stdlib Require Import List ZArith QArith Bool Lia Arith.
From Stdlib Require DecimalString.
Import ListNotations.
Close Scope Q_scope.

Set Implicit Arguments.

(** ** Exceptions and the error monad *)

Inductive exn : Type :=
| AssertionError
| IndexError
| ValueError
| ZeroDivisionError
| OverflowError.

Inductive result (A : Type) : Type :=
| Ok (a : A)
| Raise (e : exn).

Arguments Ok {A} a.
Arguments Raise {A} e.

Definition bind {A B : Type} (m : result A) (k : A -> result B) : result B :=
  match m with
  | Ok a => k a
  | Raise e => Raise e
  end.

Notation "x <- m ;; k" := (bind m (fun x => k))
  (at level 61, m at next level, right associativity).

Notation "' pat <- m ;; k" := (bind m (fun x => match x with pat => k end))
  (at level 61, pat pattern, m at next level, right associativity).

(** Python's [assert]. *)
Definition assert (b : bool) : result unit :=
  if b then Ok tt else Raise AssertionError.

(** A [for] loop whose body may raise: the state is threaded through the
    elements in order and the first exception ends the loop. *)
Fixpoint for_each {S X : Type} (body : S -> X -> result S) (xs : list X) (s : S)
  : result S :=
  match xs with
  | [] => Ok s
  | x :: xs' => s' <- body s x ;; for_each body xs' s'
  end.

(** ** Python numbers *)

(** [int(x)] and [astype(int)] on a real number: truncation towards zero. *)
Definition Qtrunc (q : Q) : Z := Z.quot (Qnum q) (Zpos (Qden q)).

(** *** binary64

    A Python float is a binary64 number: a significand [m] of at most 53
    bits and an exponent [e >= -1074], standing for the rational
    [m * 2^e].  Finite floats are modelled by the rational they stand for. *)

(** The integer nearest to [num / den], for [0 <= num] and [0 < den]; of
    two equally near integers the even one is taken. *)
Definition nearest_even (num den : Z) : Z :=
  let q := (num / den)%Z in
  let r := (num mod den)%Z in
  if (2 * r <? den)%Z then q
  else if (den <? 2 * r)%Z then (q + 1)%Z
  else if Z.even q then q else (q + 1)%Z.

(** [a / b] scaled by [2^(-e)], as a fraction of two integers. *)
Definition shift_num (a e : Z) : Z := if (e <? 0)%Z then (a * 2 ^ (- e))%Z else a.

Definition shift_den (b e : Z) : Z := if (e <? 0)%Z then b else (b * 2 ^ e)%Z.

(** The exponent of the binary64 number nearest to [a / b], for [0 < a]
    and [0 < b]: the one that brings the quotient into [2^52, 2^53), or
    [-1074] in the subnormal range. *)
Definition binary64_exponent (a b : Z) : Z :=
  let e0 := (Z.log2 a - Z.log2 b - 52)%Z in
  let e1 := if (shift_num a e0 <? 2 ^ 52 * shift_den b e0)%Z then (e0 - 1)%Z else e0 in
  Z.max e1 (- 1074).

(** The significand of the binary64 number nearest to [a / b]: the
    quotient is rounded to the nearest float, ties to even. *)
Definition binary64_significand (a b : Z) : Z :=
  let e := binary64_exponent a b in
  nearest_even (shift_num a e) (shift_den b e).

(** The rational [m * 2^e]. *)
Definition binary64_value (m e : Z) : Q :=
  if (e <? 0)%Z then Qmake m (Z.to_pos (2 ^ (- e))) else inject_Z (m * 2 ^ e).

(** True division [a / b] of two Python ints: the float nearest to the
    exact quotient, [OverflowError] when that is beyond the largest
    float. *)
Definition py_truediv (a b : Z) : result Q :=
  if (b =? 0)%Z then Raise ZeroDivisionError
  else
    let m := binary64_significand (Z.abs a) (Z.abs b) in
    let e := binary64_exponent (Z.abs a) (Z.abs b) in
    if ((0 <=? e) && (2 ^ 1024 <=? m * 2 ^ e))%Z then Raise OverflowError
    else
      let q := binary64_value m e in
      Ok (if (Z.sgn a * Z.sgn b <? 0)%Z then Qopp q else q).

Definition Qlt_bool (x y : Q) : bool := negb (Qle_bool y x).

Definition Qsum (l : list Q) : Q := fold_left Qplus l 0%Q.

Definition Zsum (l : list Z) : Z := fold_left Z.add l 0%Z.

(** ** numpy arrays *)

Module Np.

(** Normalisation of one bound [k] of a slice over an axis of length [n]:
    negative bounds count from the end, and every bound is clipped to
    [0..n]; slicing never raises. *)
Definition slice_index (n : nat) (k : Z) : nat :=
  if (k <? 0)%Z then Z.to_nat (Z.max 0 (Z.of_nat n + k))
  else Z.to_nat (Z.min k (Z.of_nat n)).

(** Normalisation of an integer index [k] into an axis of length [n]:
    negative indices wrap once, anything else out of range raises. *)
Definition axis_index (n : nat) (k : Z) : result nat :=
  if ((0 <=? k) && (k <? Z.of_nat n))%Z then Ok (Z.to_nat k)
  else if ((k <? 0) && (- Z.of_nat n <=? k))%Z then Ok (Z.to_nat (Z.of_nat n + k))
  else Raise IndexError.

Record ndarray2 (A : Type) : Type := mk2 {
  shape0 : nat;
  shape1 : nat;
  rows : list (list A)
}.

Definition get2 {A : Type} (d : A) (a : ndarray2 A) (i j : nat) : A :=
  nth j (nth i (rows a) []) d.

(** The array of shape [(R, C)] whose entry [(i, j)] is [f i j]. *)
Definition tab2 {A : Type} (R C : nat) (f : nat -> nat -> A) : ndarray2 A :=
  mk2 R C (map (fun i => map (f i) (seq 0 C)) (seq 0 R)).

(** An array is well formed when its contents have its shape. *)
Definition wf2 {A : Type} (a : ndarray2 A) : Prop :=
  length (rows a) = shape0 a /\
  Forall (fun r => length r = shape1 a) (rows a).

Definition of_rows {A : Type} (C : nat) (l : list (list A)) : ndarray2 A :=
  mk2 (length l) C l.

Definition map2d {A B : Type} (f : A -> B) (a : ndarray2 A) : ndarray2 B :=
  mk2 (shape0 a) (shape1 a) (map (map f) (rows a)).

(** [a.T] *)
Definition transpose {A : Type} (d : A) (a : ndarray2 A) : ndarray2 A :=
  tab2 (shape1 a) (shape0 a) (fun i j => get2 d a j i).

(** [np.zeros((r, c))] *)
Definition zeros (r c : Z) : result (ndarray2 Q) :=
  if ((r <? 0) || (c <? 0))%Z then Raise ValueError
  else Ok (tab2 (Z.to_nat r) (Z.to_nat c) (fun _ _ => 0%Q)).

(** [a[:, lo:hi]] *)
Definition slice_cols (a : ndarray2 Q) (lo hi : Z) : ndarray2 Q :=
  let start := slice_index (shape1 a) lo in
  let stop := slice_index (shape1 a) hi in
  tab2 (shape0 a) (stop - start) (fun i j => get2 0%Q a i (start + j)).

(** [a[:k, :]] *)
Definition slice_rows_to (a : ndarray2 Q) (k : Z) : ndarray2 Q :=
  let stop := slice_index (shape0 a) k in
  mk2 stop (shape1 a) (firstn stop (rows a)).

(** [b = a.copy(); b[:, k:] = 0] *)
Definition zero_cols_from (a : ndarray2 Q) (k : Z) : ndarray2 Q :=
  let start := slice_index (shape1 a) k in
  tab2 (shape0 a) (shape1 a)
       (fun i j => if (start <=? j)%nat then 0%Q else get2 0%Q a i j).

(** [b = a.copy(); b[:, :k] = 0] *)
Definition zero_cols_to (a : ndarray2 Q) (k : Z) : ndarray2 Q :=
  let stop := slice_index (shape1 a) k in
  tab2 (shape0 a) (shape1 a)
       (fun i j => if (j <? stop)%nat then 0%Q else get2 0%Q a i j).

(** [np.hstack((a, b))]: the row counts must agree. *)
Definition hstack2 (a b : ndarray2 Q) : result (ndarray2 Q) :=
  if (shape0 a =? shape0 b)%nat then
    Ok (tab2 (shape0 a) (shape1 a + shape1 b)
             (fun i j => if (j <? shape1 a)%nat then get2 0%Q a i j
                         else get2 0%Q b i (j - shape1 a)))
  else Raise ValueError.

Definition hstack (a b c : ndarray2 Q) : result (ndarray2 Q) :=
  ab <- hstack2 a b ;; hstack2 ab c.

(** [np.pad(a, ((1, 1), (0, 0)), 'constant')] on a boolean array. *)
Definition pad_axis0 (a : ndarray2 bool) : ndarray2 bool :=
  tab2 (shape0 a + 2) (shape1 a)
       (fun i j => if ((1 <=? i) && (i <=? shape0 a))%nat
                   then get2 false a (i - 1) j else false).

(** [np.diff(a, axis=0)] *)
Definition diff_axis0 (a : ndarray2 Z) : ndarray2 Z :=
  tab2 (shape0 a - 1) (shape1 a)
       (fun i j => (get2 0 a (i + 1) j - get2 0 a i j)%Z).

(** [a[:, k]] for an integer [k]. *)
Definition column {A : Type} (d : A) (a : ndarray2 A) (k : Z) : result (list A) :=
  j <- axis_index (shape1 a) k ;;
  Ok (map (fun i => get2 d a i j) (seq 0 (shape0 a))).

(** [a[lo:hi, p]] for natural bounds [lo], [hi] and a column [p] in range. *)
Definition column_slice {A : Type} (d : A) (a : ndarray2 A) (lo hi p : nat)
  : list A :=
  map (fun i => get2 d a i p)
      (seq (Nat.min lo (shape0 a)) (Nat.min hi (shape0 a) - Nat.min lo (shape0 a))).

(** [np.nonzero(v)[0]] on a boolean vector: the indices that hold [True]. *)
Definition nonzero (v : list bool) : list nat :=
  filter (fun i => nth i v false) (seq 0 (length v)).

(** [np.mean] of a vector of ints; [None] stands for [nan] (empty input).
    The module only takes [int] of this mean.  The float64 sum of integers
    is exact while it stays below [2^53], and truncating the rounded
    quotient then gives the truncation of the exact quotient (lemma
    [int_of_float_mean] below), so the quotient is kept exact here. *)
Definition mean (v : list Z) : option Q :=
  match v with
  | [] => None
  | _ => Some (Qdiv (inject_Z (Zsum v)) (inject_Z (Z.of_nat (length v))))
  end.

(** Python's [int(x)] on a float: [nan] cannot be converted. *)
Definition py_int (x : option Q) : result Z :=
  match x with
  | Some q => Ok (Qtrunc q)
  | None => Raise ValueError
  end.

(** *** Three-dimensional arrays: a sequence of units *)

Record ndarray3 : Type := mk3 {
  dim0 : nat;
  dim1 : nat;
  dim2 : nat;
  units : list (list (list Q))
}.

(** [a.reshape(m, t, n)] of a two-dimensional array: consecutive groups of
    [t] rows become the units.  The dimensions passed by [create_units] are
    never negative when this is reached. *)
Definition reshape3 (a : ndarray2 Q) (m t n : Z) : result ndarray3 :=
  if ((m <? 0) || (t <? 0) || (n <? 0))%Z then Raise ValueError
  else if negb (m * t * n =? Z.of_nat (shape0 a * shape1 a))%Z then Raise ValueError
  else
    let T := Z.to_nat t in
    let N := Z.to_nat n in
    Ok (mk3 (Z.to_nat m) T N
            (map (fun u =>
                    map (fun i =>
                           map (fun j =>
                                  let flat := ((u * T + i) * N + j)%nat in
                                  get2 0%Q a (flat / shape1 a) (flat mod shape1 a))
                               (seq 0 N))
                        (seq 0 T))
                 (seq 0 (Z.to_nat m)))).

(** Selection along the first axis by a boolean vector. *)
Fixpoint select {A : Type} (mask : list bool) (l : list A) : list A :=
  match mask, l with
  | b :: mask', x :: l' => if b then x :: select mask' l' else select mask' l'
  | _, _ => []
  end.

(** [dst[mask, ...] = src[mask, ...]] along the first axis. *)
Fixpoint mask_assign {A : Type} (mask : list bool) (dst src : list A) : list A :=
  match mask, dst, src with
  | b :: mask', d :: dst', s :: src' =>
      (if b then s else d) :: mask_assign mask' dst' src'
  | _, _, _ => dst
  end.

(** [np.mean(a, axis=(1,2))]: one float64 mean per unit, [None] for [nan].
    numpy adds the entries of a unit in float64, in an order of its own,
    and divides the sum by their number; [np_mean u] is the float it
    arrives at for a unit of contents [u]. *)
Definition mean12 (np_mean : list (list Q) -> option Q) (a : ndarray3)
  : list (option Q) :=
  map np_mean (units a).

(** The result of [squeeze()] on a vector: a vector of length one collapses
    to a zero-dimensional array. *)
Inductive squeezed (A : Type) : Type :=
| Scalar0 (x : A)
| Vector1 (l : list A).

Definition squeeze {A : Type} (l : list A) : squeezed A :=
  match l with
  | [x] => Scalar0 x
  | _ => Vector1 l
  end.

Definition squeezed_map {A B : Type} (f : A -> B) (s : squeezed A) : squeezed B :=
  match s with
  | Scalar0 x => Scalar0 (f x)
  | Vector1 l => Vector1 (map f l)
  end.

(** [np.sum] of a boolean array. *)
Definition count_true (s : squeezed bool) : nat :=
  match s with
  | Scalar0 b => if b then 1 else 0
  | Vector1 l => length (filter (fun b => b) l)
  end.

(** The result of [a[mask, ...]] on a three-dimensional [a]: a boolean
    vector selects units; a zero-dimensional boolean adds a leading axis of
    length one ([True]) or zero ([False]) in front of the whole of [a]. *)
Inductive indexed : Type :=
| Ix3 (a : ndarray3)
| Ix4 (lead : nat) (a : ndarray3).

Definition bool_index (a : ndarray3) (mask : squeezed bool) : result indexed :=
  match mask with
  | Scalar0 b => Ok (Ix4 (if b then 1 else 0) a)
  | Vector1 l =>
      if (length l =? dim0 a)%nat
      then Ok (Ix3 (mk3 (length (select l (units a))) (dim1 a) (dim2 a)
                        (select l (units a))))
      else Raise IndexError
  end.

(** The [shape] tuple. *)
Definition shape_of (x : indexed) : list Z :=
  match x with
  | Ix3 a => [Z.of_nat (dim0 a); Z.of_nat (dim1 a); Z.of_nat (dim2 a)]
  | Ix4 lead a =>
      [Z.of_nat lead; Z.of_nat (dim0 a); Z.of_nat (dim1 a); Z.of_nat (dim2 a)]
  end.

Fixpoint tuple_eqb (s t : list Z) : bool :=
  match s, t with
  | [], [] => true
  | x :: s', y :: t' => (x =? y)%Z && tuple_eqb s' t'
  | _, _ => false
  end.

End Np.

Import Np.

(** ** mido messages *)

Record Message : Type := mkMessage {
  msg_type : string;
  note : Z;
  velocity : Z;
  time : Z
}.

(** [mido.Message(type, note=, velocity=, time=)].  The constructor of the
    MIDI library checks its data bytes: [note] and [velocity] must lie in
    [0..127], otherwise it raises [ValueError]. *)
Definition mido_Message (ty : string) (n v t : Z) : result Message :=
  if ((0 <=? n) && (n <=? 127) && (0 <=? v) && (v <=? 127))%Z
  then Ok (mkMessage ty n v t)
  else Raise ValueError.

(** [events[t].append(msg)] *)
Fixpoint append_at (events : list (list Message)) (t : nat) (msg : Message)
  : result (list (list Message)) :=
  match events, t with
  | [], _ => Raise IndexError
  | bucket :: rest, O => Ok ((bucket ++ [msg]) :: rest)
  | bucket :: rest, S t' => rest' <- append_at rest t' msg ;; Ok (bucket :: rest')
  end.

(** [l[i]] for a natural index. *)
Definition index {A : Type} (l : list A) (i : nat) : result A :=
  match nth_error l i with
  | Some x => Ok x
  | None => Raise IndexError
  end.

(** ** The module's functions *)

Definition crop_pianoroll (pianoroll : ndarray2 Q) (min_pitch max_pitch : Z)
  : result (ndarray2 Q) :=
  _ <- assert (shape1 pianoroll =? 128)%nat ;;
  let output := slice_cols pianoroll min_pitch (max_pitch + 1) in
  _ <- assert (Z.of_nat (shape1 output) =? max_pitch - min_pitch + 1)%Z ;;
  Ok output.

Definition pad_pianoroll (pianoroll : ndarray2 Q) (min_pitch max_pitch : Z)
  : result (ndarray2 Q) :=
  _ <- assert (Z.of_nat (shape1 pianoroll) =? max_pitch - min_pitch + 1)%Z ;;
  let ticks := Z.of_nat (shape0 pianoroll) in
  front <- zeros ticks (min_pitch - 1) ;;
  back <- zeros ticks (128 - max_pitch) ;;
  output <- hstack front pianoroll back ;;
  _ <- assert (shape1 output =? 128)%nat ;;
  Ok output.

Definition chop_to_unit_multiple (pianoroll : ndarray2 Q) (ticks_per_unit : Z)
  : result (Z * ndarray2 Q) :=
  let num_ticks := Z.of_nat (shape0 pianoroll) in
  let num_pitches := shape1 pianoroll in
  q <- py_truediv num_ticks ticks_per_unit ;;
  let M := Qtrunc q in
  let pianoroll_truncated := slice_rows_to pianoroll (M * ticks_per_unit) in
  _ <- assert (M * ticks_per_unit <=? num_ticks)%Z ;;
  _ <- assert ((Z.of_nat (shape0 pianoroll_truncated) =? M * ticks_per_unit)%Z
               && (shape1 pianoroll_truncated =? num_pitches)%nat) ;;
  Ok (M, pianoroll_truncated).

(** [np.zeros(dims)]: only its failure on a negative dimension matters to
    [create_units], which overwrites the arrays it allocates. *)
Definition zeros_check (dims : list Z) : result unit :=
  if existsb (fun d => (d <? 0)%Z) dims then Raise ValueError else Ok tt.

(** [dst[mask, ...] = src[mask, ...]] on whole arrays: the mask must have
    the length of the first axis of both, and the units must have one
    shape (the only case [create_units] produces). *)
Definition mask_assign3 (mask : list bool) (dst src : ndarray3) : result ndarray3 :=
  if negb (length mask =? dim0 src)%nat then Raise IndexError
  else if negb (length mask =? dim0 dst)%nat then Raise IndexError
  else if negb ((dim1 dst =? dim1 src)%nat && (dim2 dst =? dim2 src)%nat)
  then Raise ValueError
  else Ok (mk3 (dim0 dst) (dim1 dst) (dim2 dst)
               (mask_assign mask (units dst) (units src))).

(** [rng i] is the [i]-th boolean drawn by [np.random.randint(0, 2, n,
    dtype=bool)]: a realization of the random vector. *)
Definition shuffle_left_right (rng : nat -> bool) (left_units right_units : ndarray3)
  : result (ndarray3 * ndarray3) :=
  let bool_array := map rng (seq 0 (dim0 left_units)) in
  let input_units := left_units in
  let comp_units := right_units in
  input_units <- mask_assign3 bool_array input_units right_units ;;
  comp_units <- mask_assign3 bool_array comp_units left_units ;;
  Ok (input_units, comp_units).

(** [mean > filter_threshold], where a [nan] mean compares false. *)
Definition above (filter_threshold : Q) (m : option Q) : bool :=
  match m with
  | Some q => Qlt_bool filter_threshold q
  | None => false
  end.

(** [np_mean] is numpy's float64 mean of a unit (see [mean12]) and [rng]
    the realization of the random vector drawn by [shuffle_left_right].
    The two [zeros_check] lines are the two [np.zeros] allocations.  After
    the shape assertions both results are three-dimensional, which the
    final [match] records. *)
Definition create_units (np_mean : list (list Q) -> option Q) (rng : nat -> bool)
  (pianoroll : ndarray2 Q)
  (num_pitches ticks_per_unit partition_note min_pitch : Z) (filter_threshold : Q)
  : result (ndarray3 * ndarray3) :=
  _ <- assert (Z.of_nat (shape1 pianoroll) =? num_pitches)%Z ;;
  ' (M, pianoroll) <- chop_to_unit_multiple pianoroll ticks_per_unit ;;
  _ <- zeros_check [M; ticks_per_unit; num_pitches] ;;
  _ <- zeros_check [M; ticks_per_unit; num_pitches] ;;
  let partition_note := (partition_note - min_pitch)%Z in
  let left_comp := zero_cols_from pianoroll partition_note in
  let right_comp := zero_cols_to pianoroll partition_note in
  left_units <- reshape3 left_comp M ticks_per_unit num_pitches ;;
  right_units <- reshape3 right_comp M ticks_per_unit num_pitches ;;
  ' (input_units, comp_units) <- shuffle_left_right rng left_units right_units ;;
  let input_units_means := squeeze (mean12 np_mean input_units) in
  let filter_array := squeezed_map (above filter_threshold) input_units_means in
  input_units <- bool_index input_units filter_array ;;
  comp_units <- bool_index comp_units filter_array ;;
  let M := Z.of_nat (count_true filter_array) in
  _ <- assert (tuple_eqb (shape_of input_units) [M; ticks_per_unit; num_pitches]) ;;
  _ <- assert (tuple_eqb (shape_of comp_units) [M; ticks_per_unit; num_pitches]) ;;
  match input_units, comp_units with
  | Ix3 i, Ix3 c => Ok (i, c)
  | _, _ => Raise AssertionError
  end.

(** The body of the loop over [enumerate(note_ons)]. *)
Definition note_events (clipped : ndarray2 Z) (num_ticks p : nat) (pitch : Z)
  (note_ons note_offs : list nat) (events : list (list Message)) (it : nat * nat)
  : result (list (list Message)) :=
  let (idx, note_on) := it in
  note_off <- index note_offs idx ;;
  velocity <- py_int (mean (column_slice 0%Z clipped note_on note_off p)) ;;
  on_msg <- mido_Message "note_on" pitch velocity 0 ;;
  on_tick <- index note_ons idx ;;
  events <- append_at events on_tick on_msg ;;
  if (note_off <? num_ticks)%nat then
    off_msg <- mido_Message "note_on" pitch 0 0 ;;
    append_at events note_off off_msg
  else Ok events.

(** The body of the loop over [range(num_pitches)].  The source reads
    [diff[:, pitch]] once for the note-ons and once for the note-offs; both
    reads raise alike, so the column is fetched once. *)
Definition pitch_events (clipped diff : ndarray2 Z) (num_ticks : nat) (min_pitch : Z)
  (events : list (list Message)) (p : nat) : result (list (list Message)) :=
  let pitch := (min_pitch + Z.of_nat p)%Z in
  col <- column 0%Z diff pitch ;;
  let note_ons := nonzero (map (fun d => (0 <? d)%Z) col) in
  let note_offs := nonzero (map (fun d => (d <? 0)%Z) col) in
  for_each (note_events clipped num_ticks p pitch note_ons note_offs)
           (combine (seq 0 (length note_ons)) note_ons) events.

Definition pianoroll_2_events (pianoroll : ndarray2 Q) (min_pitch max_pitch : Z)
  : result (list (list Message)) :=
  _ <- assert (Z.of_nat (shape0 pianoroll) =? max_pitch - min_pitch + 1)%Z ;;
  let num_pitches := shape0 pianoroll in
  let num_ticks := shape1 pianoroll in
  let pianoroll := transpose 0%Q pianoroll in
  let events := repeat ([] : list Message) num_ticks in
  let clipped := map2d Qtrunc pianoroll in
  let binarized := map2d (fun z => negb (z =? 0)%Z) clipped in
  let padded := pad_axis0 binarized in
  let diff := diff_axis0 (map2d (fun b : bool => if b then 1%Z else 0%Z) padded) in
  for_each (pitch_events clipped diff num_ticks min_pitch) (seq 0 num_pitches) events.

(** ** Reference descriptions

    The definitions below describe the results in the words of the design:
    notes are the maximal runs of nonzero (integer-truncated) values of a
    pitch, and a unit is a group of consecutive ticks.  The theorems compare
    the functions above with them. *)

(** The integer-truncated value of pitch row [p] at tick [t]. *)
Definition clipped_at (P : ndarray2 Q) (p t : nat) : Z :=
  Qtrunc (get2 0%Q P p t).

(** Pitch [p] sounds at tick [t]. *)
Definition on_at (P : ndarray2 Q) (p t : nat) : bool :=
  (t <? shape1 P)%nat && negb (clipped_at P p t =? 0)%Z.

Definition before (on : nat -> bool) (t : nat) : bool :=
  match t with
  | O => false
  | S t' => on t'
  end.

Definition rising (on : nat -> bool) (t : nat) : bool :=
  on t && negb (before on t).

Definition falling (on : nat -> bool) (t : nat) : bool :=
  negb (on t) && before on t.

(** The number of consecutive sounding ticks from [t] on, at most [fuel]. *)
Fixpoint run_length (on : nat -> bool) (fuel t : nat) : nat :=
  match fuel with
  | O => O
  | S fuel' => if on t then S (run_length on fuel' (S t)) else O
  end.

(** The integer-truncated mean of the run of pitch [p] that starts at [t]. *)
Definition run_velocity (P : ndarray2 Q) (p t : nat) : Z :=
  let n := run_length (on_at P p) (shape1 P - t) t in
  Z.quot (Zsum (map (clipped_at P p) (seq t n))) (Z.of_nat n).

Definition on_msg (pitch vel : Z) : Message := mkMessage "note_on" pitch vel 0.

(** A note-off is sent as a [note_on] message of velocity zero. *)
Definition off_msg (pitch : Z) : Message := mkMessage "note_on" pitch 0 0.

(** What pitch [p] contributes to the bucket of tick [t]. *)
Definition note_messages (P : ndarray2 Q) (p t : nat) : list Message :=
  if rising (on_at P p) t then [on_msg (Z.of_nat p) (run_velocity P p t)]
  else if falling (on_at P p) t then [off_msg (Z.of_nat p)]
  else [].

Definition expected_events (P : ndarray2 Q) : list (list Message) :=
  map (fun t => flat_map (fun p => note_messages P p t) (seq 0 (shape0 P)))
      (seq 0 (shape1 P)).



(** Unit number [u] of a pianoroll cut into units of [T] ticks by [N]
    pitches. *)
Definition unit_at (a : ndarray2 Q) (T N u : nat) : list (list Q) :=
  map (fun i => map (fun j => get2 0%Q a (u * T + i) j) (seq 0 N)) (seq 0 T).

(** The number of units [chop_to_unit_multiple] cuts a pianoroll into
    (none when it raises). *)
Definition unit_count (P : ndarray2 Q) (ticks_per_unit : Z) : nat :=
  match chop_to_unit_multiple P ticks_per_unit with
  | Ok (M, _) => Z.to_nat M
  | Raise _ => 0
  end.

(** The truncated pianoroll [chop_to_unit_multiple] returns (without
    ticks when it raises). *)
Definition truncated (P : ndarray2 Q) (ticks_per_unit : Z) : ndarray2 Q :=
  match chop_to_unit_multiple P ticks_per_unit with
  | Ok (_, Pt) => Pt
  | Raise _ => mk2 0 (shape1 P) []
  end.






(** [np.mean] of a unit whose float64 sum is exact in whatever order the
    entries are added (integer entries of a total below [2^53], as in the
    examples below): the float nearest to the quotient of that sum by the
    number of entries, [nan] for a unit without entries. *)
Definition mean_of_exact_sum (u : list (list Q)) : option Q :=
  match concat u with
  | [] => None
  | x :: l =>
      let s := Qsum (x :: l) in
      let a := Z.abs (Qnum s) in
      let b := (Z.pos (Qden s) * Z.of_nat (length (x :: l)))%Z in
      let q := binary64_value (binary64_significand a b) (binary64_exponent a b) in
      Some (if (Qnum s <? 0)%Z then Qopp q else q)
  end.

(** The body of the loop over notes once its two list lookups are
    resolved to the note-on tick [a] and the note-off tick [b]. *)
Definition note_pair_events (clipped : ndarray2 Z) (num_ticks p : nat) (pitch : Z)
  (events : list (list Message)) (ab : nat * nat) : result (list (list Message)) :=
  note_events clipped num_ticks p pitch [fst ab] [snd ab] events (0, fst ab).

(** Every integer-truncated entry is a MIDI velocity. *)
Definition valid_pianoroll (P : ndarray2 Q) : Prop :=
  forall p t, p < shape0 P -> t < shape1 P -> (0 <= clipped_at P p t <= 127)%Z.

(** ** Example inputs *)

(** One pitch, one silent tick. *)
Definition silent_tick : ndarray2 Q := of_rows 1 [[0%Q]].

(** One pitch, two ticks of value 200, above the MIDI velocity range. *)
Definition loud_example : ndarray2 Q := of_rows 2 [[200; 200]%Q].

(** One pitch, two ticks of value 1/2, which truncates to 0. *)
Definition faint_example : ndarray2 Q := of_rows 2 [[1 # 2; 1 # 2]%Q].

(** One pitch, four ticks, sounding from tick 1 to the last tick. *)
Definition held_example : ndarray2 Q := of_rows 4 [[0; 3; 4; 5]%Q].

(** Two arrays of three units of shape [(1, 1)]. *)
Definition lefts : ndarray3 := mk3 3 1 1 [[[1%Q]]; [[2%Q]]; [[3%Q]]].

Definition rights : ndarray3 := mk3 3 1 1 [[[10%Q]]; [[20%Q]]; [[30%Q]]].

(** One pitch, eight ticks: the run [5, 5, 5] over ticks 2..4. *)
Definition run_example : ndarray2 Q :=
  of_rows 8 [[0; 0; 5; 5; 5; 0; 0; 0]%Q].

(** The same values laid out tick-major, shape [(8, 1)]. *)
Definition run_example_tick_major : ndarray2 Q :=
  of_rows 1 [[0]; [0]; [5]; [5]; [5]; [0]; [0]; [0]]%Q.

(** A full-width pianoroll of one tick whose entry at pitch [j] is [j]. *)
Definition ramp128 : ndarray2 Q :=
  tab2 1 128 (fun _ j => inject_Z (Z.of_nat j)).

(** Five ticks of two pitches. *)
Definition five_ticks : ndarray2 Q :=
  of_rows 2 [[1; 2]; [3; 4]; [0; 0]; [0; 1]; [7; 7]]%Q.

(** One tick of one pitch: a song of a single unit when [ticks_per_unit = 1]. *)
Definition one_tick : ndarray2 Q := of_rows 1 [[1%Q]].

(** Ten ticks of one pitch. *)
Definition ten_ticks : ndarray2 Q :=
  tab2 10 1 (fun i _ => inject_Z (Z.of_nat i)).

(** A pianoroll of [n] ticks and no pitch, of shape [(n, 0)]. *)
Definition no_pitches (n : Z) : ndarray2 Q :=
  mk2 (Z.to_nat n) 0 (repeat [] (Z.to_nat n)).

(** ** The remaining functions of the module *)

(** [np.zeros(size).reshape(r, c)].  The callers pass [r >= 0] and
    [c > 0], so the [-1] wildcard of [reshape] never occurs. *)
Definition zeros_reshaped (size r c : Z) : result (ndarray2 Q) :=
  if (size <? 0)%Z then Raise ValueError
  else if ((r <? 0) || (c <? 0) || negb (r * c =? size))%Z then Raise ValueError
  else Ok (tab2 (Z.to_nat r) (Z.to_nat c) (fun _ _ => 0%Q)).

(** The slices [pianoroll[:, :k]] and [pianoroll[:, k:]] are [slice_cols]
    with the missing bound set to the end of the axis it stands for. *)
Definition get_transposed_pianoroll (pianoroll : ndarray2 Q) (num_semitones : Z)
  : result (ndarray2 Q) :=
  let num_ticks := Z.of_nat (shape0 pianoroll) in
  let num_pitches := Z.of_nat (shape1 pianoroll) in
  _ <- assert (Z.abs num_semitones <=? num_pitches)%Z ;;
  transposed_pianoroll <-
    (if (0 <? num_semitones)%Z then
       z <- zeros_reshaped (num_semitones * num_ticks) num_ticks num_semitones ;;
       hstack2 z (slice_cols pianoroll 0 (num_pitches - num_semitones))
     else if (num_semitones <? 0)%Z then
       let num_semitones := Z.abs num_semitones in
       let kept_columns := slice_cols pianoroll num_semitones num_pitches in
       z <- zeros_reshaped (num_semitones * num_ticks) num_ticks num_semitones ;;
       hstack2 kept_columns z
     else Ok pianoroll) ;;
  _ <- assert ((shape0 transposed_pianoroll =? shape0 pianoroll)%nat
               && (shape1 transposed_pianoroll =? shape1 pianoroll)%nat) ;;
  Ok transposed_pianoroll.

(** A message in a MIDI track: the message and the channel it is sent on
    (a freshly built message is on channel 0). *)
Record TrackMessage : Type := mkTrackMessage {
  channel : Z;
  message : Message
}.

(** [msg.copy(channel=c, time=t)] *)
Definition copy_message (c t : Z) (msg : Message) : TrackMessage :=
  mkTrackMessage c (mkMessage (msg_type msg) (note msg) (velocity msg) t).

(** The body of the loop over the ticks of one beat in [play_midi_events]:
    the tick's messages go to the track on channel 5, then a silent
    [note_off] of 16 time units stands for the wait. *)
Definition play_tick (events : list (list Message)) (ticks_per_beat beat : nat)
  (track : list TrackMessage) (tick : nat) : result (list TrackMessage) :=
  let COMP_CHANNEL := 5%Z in
  let current_tick := beat * ticks_per_beat + tick in
  bucket <- index events current_tick ;;
  let track := track ++ map (copy_message COMP_CHANNEL 0) bucket in
  wait <- mido_Message "note_off" 0 0 16 ;;
  Ok (track ++ [mkTrackMessage 0 wait]).

(** [timidity track] stands for saving the track to the temporary MIDI
    file and running the external synthesizer on it: its exit code. *)
Definition play_midi_events (timidity : list TrackMessage -> Z)
  (events : list (list Message)) : result Z :=
  let beats_per_bar := 4 in
  let ticks_per_beat := 24 in
  track <- for_each (fun track beat =>
                       for_each (play_tick events ticks_per_beat beat)
                                (seq 0 ticks_per_beat) track)
                    (seq 0 beats_per_bar) [] ;;
  Ok (timidity track).

Definition play_pianoroll_events (timidity : list TrackMessage -> Z)
  (pianoroll : ndarray2 Q) (min_pitch max_pitch : Z) : result Z :=
  events <- pianoroll_2_events pianoroll min_pitch max_pitch ;;
  play_midi_events timidity events.

(** [write_and_play pianoroll bpm beat_resolution] stands for building the
    pypianoroll track, writing it to the temporary MIDI file and running
    the external synthesizer: its exit code, or the exception the external
    libraries raise.  The [print] of the two bounds is not modelled. *)
Definition play_pianoroll (write_and_play : ndarray2 Q -> Q -> Z -> result Z)
  (pianoroll : ndarray2 Q) (min_pitch max_pitch : Z) (bpm : Q) (beat_resolution : Z)
  : result Z :=
  pianoroll <- (if negb (min_pitch =? 0)%Z || negb (max_pitch =? 127)%Z
                then pad_pianoroll pianoroll min_pitch max_pitch
                else Ok pianoroll) ;;
  write_and_play pianoroll bpm beat_resolution.

(** What a tick contributes to the track of [play_midi_events]. *)
Definition tick_track (events : list (list Message)) (t : nat) : list TrackMessage :=
  map (copy_message 5 0) (nth t events []) ++
  [mkTrackMessage 0 (mkMessage "note_off" 0 0 16)].

(** A pianoroll of four ticks and three pitches, tick-major. *)
Definition three_pitches : ndarray2 Q :=
  of_rows 3 [[1; 2; 3]; [4; 5; 6]; [7; 8; 9]; [10; 11; 12]]%Q.

(** ** Plotting: the calls made on the axes *)

(** [np.arange(start, stop, step)] and [range(start, stop, step)] on
    integers, for a positive [step]. *)
Definition arange (start stop step : Z) : list Z :=
  map (fun i => (start + step * Z.of_nat i)%Z)
      (seq 0 (Z.to_nat ((stop - start + step - 1) / step))).

(** ['C{}'.format(i)] *)
Definition octave_label (i : Z) : string :=
  String.append "C" (DecimalString.NilZero.string_of_int (Z.to_int i)).

(** The methods [plot_pianoroll] calls on [ax], with the arguments that
    vary; [imshow] always gets [aspect='auto', vmin=0, vmax=1,
    origin='lower', interpolation='none'], [tick_params] always
    [axis='x', which='minor', width=0], and [grid] always
    [axis='both', color='k', linestyle=':', linewidth=.5].  The empty
    string passed to [set_xticklabels] is the empty sequence of labels. *)
Inductive AxCall : Type :=
| imshow (image : ndarray2 Q) (cmap : string)
| set_ylabel (label : string)
| set_yticks (ticks : list Z)
| set_yticklabels (labels : list string)
| set_xlabel (label : string)
| set_xticks (ticks : list Q) (minor : bool)
| set_xticklabels (labels : list Z) (minor : bool)
| tick_params
| grid.

(** Python's [a // b] on integers. *)
Definition py_floordiv (a b : Z) : result Z :=
  if (b =? 0)%Z then Raise ZeroDivisionError else Ok (a / b)%Z.

(** [plot_pianoroll] acts on [ax] only: the result is the list of calls
    made so far, kept when an exception ends the function, and the
    exception if there is one.  [beat_resolution = None] is [None]. *)
Definition plot_pianoroll (ax : list AxCall) (pianoroll : ndarray2 Q)
  (min_pitch max_pitch : Z) (beat_resolution : option Z) (cmap : string)
  : list AxCall * result unit :=
  if negb (Z.of_nat (shape1 pianoroll) =? max_pitch - min_pitch + 1)%Z
  then (ax, Raise AssertionError)
  else
    let ax := ax ++ [imshow (transpose 0%Q pianoroll) cmap] in
    let ax := ax ++ [set_ylabel "pitch"] in
    let lowest_octave := ((min_pitch - 1) / 12 + 1 - 2)%Z in
    let highest_octave := (max_pitch / 12 - 2)%Z in
    let ax := ax ++ [set_yticks
                       (map (fun c => (c - min_pitch)%Z)
                            (arange ((lowest_octave + 2) * 12) (max_pitch + 1) 12))] in
    let ax := ax ++ [set_yticklabels
                       (map octave_label (arange lowest_octave (highest_octave + 1) 1))] in
    let ax := ax ++ [set_xlabel "ticks"] in
    match beat_resolution with
    | None => (ax ++ [grid], Ok tt)
    | Some beat_resolution =>
        match py_floordiv (Z.of_nat (shape0 pianoroll)) beat_resolution with
        | Raise e => (ax, Raise e)
        | Ok num_beat =>
            let xticks_major :=
              map (fun i => inject_Z (beat_resolution * i)) (arange 0 num_beat 1) in
            let xticks_minor :=
              map (fun i => Qmult (inject_Z beat_resolution)
                                  (Qplus (1 # 2) (inject_Z i)))
                  (arange 0 num_beat 1) in
            let xtick_labels := arange 1 (1 + num_beat) 1 in
            let ax := ax ++ [set_xticks xticks_major false] in
            let ax := ax ++ [set_xticklabels [] false] in
            let ax := ax ++ [set_xticks xticks_minor true] in
            let ax := ax ++ [set_xticklabels xtick_labels true] in
            let ax := ax ++ [tick_params] in
            let ax := ax ++ [set_xlabel "beats"] in
            (ax ++ [grid], Ok tt)
        end
    end.

(** * Properties *)

(** ** The error monad *)

Lemma for_each_app (S X : Type) (body : S -> X -> result S) (l1 l2 : list X) (s : S) :
  for_each body (l1 ++ l2) s = (s' <- for_each body l1 s ;; for_each body l2 s').
Proof.
  revert s; induction l1 as [| x l1 IH]; intros s; simpl.
  - reflexivity.
  - destruct (body s x) as [s1 | e]; simpl; [apply IH | reflexivity].
Qed.

(** A loop raises as soon as one of its elements makes the body raise
    whatever the state. *)
Lemma for_each_raises (S X : Type) (body : S -> X -> result S) (l1 l2 : list X)
  (x : X) (s : S) :
  (forall s', exists e, body s' x = Raise e) ->
  exists e, for_each body (l1 ++ x :: l2) s = Raise e.
Proof.
  intros Hx. rewrite for_each_app.
  destruct (for_each body l1 s) as [s1 | e]; simpl.
  - destruct (Hx s1) as [e He]. rewrite He. simpl. exists e; reflexivity.
  - exists e; reflexivity.
Qed.

(** ** Lists and arrays *)

Lemma nth_map_seq (A : Type) (f : nat -> A) (s n i : nat) (d : A) :
  i < n -> nth i (map f (seq s n)) d = f (s + i).
Proof.
  intros Hi.
  rewrite (nth_indep _ d (f 0)) by (rewrite length_map, length_seq; exact Hi).
  rewrite map_nth. rewrite seq_nth by exact Hi. reflexivity.
Qed.

Lemma get2_tab2 (A : Type) (d : A) (R C : nat) (f : nat -> nat -> A) (i j : nat) :
  i < R -> j < C -> get2 d (tab2 R C f) i j = f i j.
Proof.
  intros Hi Hj. unfold get2, tab2; simpl.
  rewrite (nth_map_seq (fun i => map (f i) (seq 0 C)) 0 [] Hi). simpl.
  rewrite (nth_map_seq (f i) 0 d Hj). reflexivity.
Qed.

Lemma shape0_tab2 (A : Type) (R C : nat) (f : nat -> nat -> A) :
  shape0 (tab2 R C f) = R.
Proof. reflexivity. Qed.

Lemma shape1_tab2 (A : Type) (R C : nat) (f : nat -> nat -> A) :
  shape1 (tab2 R C f) = C.
Proof. reflexivity. Qed.

Lemma tab2_ext (A : Type) (R C : nat) (f g : nat -> nat -> A) :
  (forall i j, i < R -> j < C -> f i j = g i j) -> tab2 R C f = tab2 R C g.
Proof.
  intros H. unfold tab2. f_equal.
  apply map_ext_in. intros i Hi. apply in_seq in Hi.
  apply map_ext_in. intros j Hj. apply in_seq in Hj.
  apply H; lia.
Qed.

Lemma map2d_tab2 (A B : Type) (g : A -> B) (R C : nat) (f : nat -> nat -> A) :
  map2d g (tab2 R C f) = tab2 R C (fun i j => g (f i j)).
Proof.
  unfold map2d, tab2; simpl. f_equal.
  rewrite map_map. apply map_ext. intros i. rewrite map_map. reflexivity.
Qed.

Lemma wf2_tab2 (A : Type) (R C : nat) (f : nat -> nat -> A) : wf2 (tab2 R C f).
Proof.
  unfold wf2, tab2; simpl. split.
  - rewrite length_map, length_seq. reflexivity.
  - apply Forall_forall. intros r Hr. apply in_map_iff in Hr.
    destruct Hr as [i [<- _]]. rewrite length_map, length_seq. reflexivity.
Qed.

Lemma slice_index_nonneg (n : nat) (k : Z) :
  (0 <= k <= Z.of_nat n)%Z -> slice_index n k = Z.to_nat k.
Proof.
  intros Hk. unfold slice_index.
  destruct (Z.ltb_spec k 0); [lia |]. f_equal. lia.
Qed.


Lemma zeros_ok (r c : Z) :
  (0 <= r)%Z -> (0 <= c)%Z ->
  zeros r c = Ok (tab2 (Z.to_nat r) (Z.to_nat c) (fun _ _ => 0%Q)).
Proof.
  intros Hr Hc. unfold zeros.
  destruct (Z.ltb_spec r 0); [lia |]. destruct (Z.ltb_spec c 0); [lia |].
  reflexivity.
Qed.

Lemma zeros_negative (r c : Z) : (c < 0)%Z -> zeros r c = Raise ValueError.
Proof.
  intros Hc. unfold zeros.
  destruct (Z.ltb_spec c 0); [| lia]. rewrite orb_true_r. reflexivity.
Qed.

Lemma Qtrunc_div (a b : Z) :
  b <> 0%Z -> Qtrunc (Qdiv (inject_Z a) (inject_Z b)) = Z.quot a b.
Proof.
  intros Hb. unfold Qtrunc, Qdiv, Qmult, Qinv, inject_Z; simpl.
  destruct b as [| q | q]; [congruence | |]; simpl.
  - rewrite Z.mul_1_r. reflexivity.
  - change (Z.neg q) with (- Z.pos q)%Z. rewrite Z.quot_opp_r by discriminate.
    rewrite <- Z.quot_opp_l by discriminate. f_equal. lia.
Qed.

(** ** binary64 division *)

Lemma nearest_even_cases (num den : Z) :
  nearest_even num den = (num / den)%Z \/
  (nearest_even num den = (num / den + 1)%Z /\ (den <= 2 * (num mod den))%Z).
Proof.
  unfold nearest_even.
  destruct (Z.ltb_spec (2 * (num mod den)) den); [left; reflexivity |].
  destruct (Z.ltb_spec den (2 * (num mod den))); [right; split; [reflexivity | lia] |].
  destruct (Z.even (num / den)); [left; reflexivity | right; split; [reflexivity | lia]].
Qed.

Lemma nearest_even_nonneg (num den : Z) :
  (0 <= num)%Z -> (0 < den)%Z -> (0 <= nearest_even num den)%Z.
Proof.
  intros Hn Hd. pose proof (Z.div_pos num den Hn Hd).
  destruct (nearest_even_cases num den) as [-> | [-> _]]; lia.
Qed.

(** Rounding the quotient scaled by [K] does not reach the next integer
    multiple of [K] as long as the divisor is below [2 * K]. *)
Lemma nearest_even_scaled (a b K : Z) :
  (0 <= a)%Z -> (0 < b)%Z -> (0 < K)%Z -> (b < 2 * K)%Z ->
  (nearest_even (a * K) b / K = a / b)%Z.
Proof.
  intros Ha Hb HK HbK.
  set (c := (a / b)%Z).
  assert (Hc : (0 <= c)%Z) by (apply Z.div_pos; lia).
  assert (Hac : (b * c <= a < b * (c + 1))%Z).
  { pose proof (Z.div_mod a b ltac:(lia)) as Hdm.
    pose proof (Z.mod_pos_bound a b Hb). fold c in Hdm. lia. }
  set (Q0 := (a * K / b)%Z). set (r := ((a * K) mod b)%Z).
  assert (HN : (a * K = b * Q0 + r)%Z) by (apply Z.div_mod; lia).
  assert (Hr : (0 <= r < b)%Z) by (apply Z.mod_pos_bound; exact Hb).
  assert (Hlow : (c * K <= Q0)%Z).
  { apply Z.div_le_lower_bound; [exact Hb |]. nia. }
  assert (Hup : (Q0 < (c + 1) * K)%Z).
  { apply Z.div_lt_upper_bound; [exact Hb |]. nia. }
  symmetry. apply Z.div_unique with (r := (nearest_even (a * K) b - c * K)%Z); [| lia].
  left.
  destruct (nearest_even_cases (a * K) b) as [-> | [-> Hhalf]];
    fold Q0; [lia |].
  fold r in Hhalf.
  split; [lia |].
  assert (Q0 <> (c + 1) * K - 1)%Z; [| lia].
  intros HQ.
  assert (HK2 : (K * (b * (c + 1) - a) = b - r)%Z) by nia.
  assert (K <= b - r)%Z by nia.
  lia.
Qed.

Lemma shift_num_nonpos (a e : Z) : (e <= 0)%Z -> shift_num a e = (a * 2 ^ (- e))%Z.
Proof.
  intros He. unfold shift_num. destruct (Z.ltb_spec e 0); [reflexivity |].
  replace e with 0%Z by lia. simpl. lia.
Qed.

Lemma shift_den_nonpos (b e : Z) : (e <= 0)%Z -> shift_den b e = b.
Proof.
  intros He. unfold shift_den. destruct (Z.ltb_spec e 0); [reflexivity |].
  replace e with 0%Z by lia. simpl. lia.
Qed.

Lemma shift_num_nonneg (a e : Z) : (0 <= a)%Z -> (0 <= shift_num a e)%Z.
Proof.
  intros Ha. unfold shift_num. destruct (Z.ltb_spec e 0); [| exact Ha].
  apply Z.mul_nonneg_nonneg; [exact Ha |]. apply Z.pow_nonneg. lia.
Qed.

Lemma shift_den_pos (b e : Z) : (0 < b)%Z -> (0 < shift_den b e)%Z.
Proof.
  intros Hb. unfold shift_den. destruct (Z.ltb_spec e 0); [exact Hb |].
  apply Z.mul_pos_pos; [exact Hb |]. apply Z.pow_pos_nonneg; lia.
Qed.

Lemma binary64_significand_nonneg (a b : Z) :
  (0 <= a)%Z -> (0 < b)%Z -> (0 <= binary64_significand a b)%Z.
Proof.
  intros Ha Hb. unfold binary64_significand.
  apply nearest_even_nonneg; [apply shift_num_nonneg | apply shift_den_pos]; assumption.
Qed.

(** The exponent chosen for a quotient of a positive integer below [2^53]
    is not positive, and scales the quotient below [2^53]; unless it is
    the least exponent, it scales the quotient to [2^52] at least. *)
Lemma binary64_exponent_small (a b : Z) :
  (0 < a < 2 ^ 53)%Z -> (0 < b)%Z ->
  let e := binary64_exponent a b in
  (- 1074 <= e <= 0)%Z /\
  (a * 2 ^ (- e) < 2 ^ 53 * b)%Z /\
  (e = (- 1074)%Z \/ 2 ^ 52 * b <= a * 2 ^ (- e))%Z.
Proof.
  intros Ha Hb. unfold binary64_exponent.
  set (la := Z.log2 a). set (lb := Z.log2 b).
  assert (Hla : (2 ^ la <= a < 2 ^ (la + 1))%Z).
  { unfold la. replace (la + 1)%Z with (Z.succ la) by lia. apply Z.log2_spec. lia. }
  assert (Hlb : (2 ^ lb <= b < 2 ^ (lb + 1))%Z).
  { unfold lb. replace (lb + 1)%Z with (Z.succ lb) by lia. apply Z.log2_spec. lia. }
  assert (Hla0 : (0 <= la)%Z) by apply Z.log2_nonneg.
  assert (Hlb0 : (0 <= lb)%Z) by apply Z.log2_nonneg.
  assert (Hla53 : (la < 53)%Z) by (apply Z.log2_lt_pow2; lia).
  set (e0 := (la - lb - 52)%Z).
  assert (He0 : (e0 <= 0)%Z) by (unfold e0; lia).
  rewrite shift_num_nonpos, shift_den_nonpos by exact He0.
  set (K0 := (2 ^ (- e0))%Z).
  assert (HK0 : (0 < K0)%Z) by (apply Z.pow_pos_nonneg; lia).
  assert (HAK : (2 ^ la * K0 = 2 ^ 52 * 2 ^ lb)%Z).
  { unfold K0. rewrite <- !Z.pow_add_r by lia. f_equal. unfold e0. lia. }
  assert (Hpow1a : (2 ^ (la + 1) = 2 * 2 ^ la)%Z)
    by (rewrite Z.pow_add_r by lia; lia).
  assert (Hpow1b : (2 ^ (lb + 1) = 2 * 2 ^ lb)%Z)
    by (rewrite Z.pow_add_r by lia; lia).
  assert (Hlo0 : (2 ^ 51 * b < a * K0)%Z).
  { assert (2 ^ la * K0 <= a * K0)%Z by (apply Z.mul_le_mono_nonneg_r; lia).
    change (2 ^ 52)%Z with (2 * 2 ^ 51)%Z in HAK. nia. }
  assert (Hhi0 : (a * K0 < 2 ^ 53 * b)%Z).
  { assert (a * K0 < 2 ^ (la + 1) * K0)%Z by (apply Z.mul_lt_mono_pos_r; lia).
    change (2 ^ 53)%Z with (2 * 2 ^ 52)%Z. nia. }
  set (e1 := if (a * K0 <? 2 ^ 52 * b)%Z then (e0 - 1)%Z else e0).
  assert (He1 : (e1 <= 0)%Z /\ (a * 2 ^ (- e1) < 2 ^ 53 * b)%Z /\
                (2 ^ 52 * b <= a * 2 ^ (- e1))%Z).
  { unfold e1. destruct (Z.ltb_spec (a * K0) (2 ^ 52 * b)) as [Hlt | Hge].
    - replace (- (e0 - 1))%Z with (- e0 + 1)%Z by lia.
      rewrite Z.pow_add_r by lia. fold K0. change (2 ^ 1)%Z with 2%Z.
      change (2 ^ 53)%Z with (2 * 2 ^ 52)%Z.
      change (2 ^ 52)%Z with (2 * 2 ^ 51)%Z in *. lia.
    - fold K0. lia. }
  destruct He1 as [He1 [Hhi1 Hlo1]].
  destruct (Z.max_spec e1 (- 1074)) as [[Hlt ->] | [Hle ->]].
  - split; [lia |]. split; [| left; reflexivity].
    assert (Hmono : (2 ^ 1074 <= 2 ^ (- e1))%Z) by (apply Z.pow_le_mono_r; lia).
    change (- - 1074)%Z with 1074%Z.
    assert (a * 2 ^ 1074 <= a * 2 ^ (- e1))%Z by (apply Z.mul_le_mono_nonneg_l; lia).
    lia.
  - split; [lia |]. split; [exact Hhi1 | right; exact Hlo1].
Qed.

(** [int(a / b)] on a float quotient of non-negative integers below
    [2^53] is the integer quotient: the rounding does not reach the next
    integer. *)
Lemma binary64_floor (a b : Z) :
  (0 <= a < 2 ^ 53)%Z -> (0 < b)%Z ->
  let m := binary64_significand a b in
  let e := binary64_exponent a b in
  (e <= 0)%Z /\ (0 <= m)%Z /\ (m / 2 ^ (- e) = a / b)%Z.
Proof.
  intros Ha Hb m e.
  assert (Hm : (0 <= m)%Z) by (apply binary64_significand_nonneg; lia).
  destruct (Z.eq_dec a 0) as [-> | Hne].
  - assert (He : (e <= 0)%Z).
    { unfold e, binary64_exponent.
      pose proof (Z.log2_nonneg b). change (Z.log2 0) with 0%Z.
      set (e0 := (0 - Z.log2 b - 52)%Z).
      destruct (shift_num 0 e0 <? 2 ^ 52 * shift_den b e0)%Z; lia. }
    split; [exact He |]. split; [exact Hm |].
    unfold m, binary64_significand. fold e.
    rewrite shift_num_nonpos, shift_den_nonpos by exact He.
    unfold nearest_even. rewrite Z.mul_0_l, Z.div_0_l, Zmod_0_l by lia.
    destruct (Z.ltb_spec (2 * 0) b); [| lia]. reflexivity.
  - destruct (@binary64_exponent_small a b ltac:(lia) Hb) as [[Hlo He] [Hhi Hnorm]].
    fold e in Hlo, He, Hhi, Hnorm.
    split; [exact He |]. split; [exact Hm |].
    unfold m, binary64_significand. fold e.
    rewrite shift_num_nonpos, shift_den_nonpos by exact He.
    set (K := (2 ^ (- e))%Z) in *.
    assert (HK : (0 < K)%Z) by (apply Z.pow_pos_nonneg; lia).
    destruct (Z_lt_le_dec b (2 * K)) as [Hsmall | Hbig].
    + apply nearest_even_scaled; lia.
    + (* the divisor is large: the least exponent, and a quotient below one *)
      destruct Hnorm as [Hmin | Hnorm];
        [| change (2 ^ 53)%Z with (2 * 2 ^ 52)%Z in *; nia].
      assert (HK53 : (2 ^ 53 < K)%Z).
      { unfold K. rewrite Hmin. change (- - 1074)%Z with 1074%Z.
        apply Z.pow_lt_mono_r; lia. }
      assert (Hab : (a < b)%Z) by nia.
      rewrite (Z.div_small a b) by lia.
      apply Z.div_small. split; [apply nearest_even_nonneg; nia |].
      assert (HQ : (a * K / b < 2 ^ 53)%Z).
      { apply Z.div_lt_upper_bound; [exact Hb |]. lia. }
      destruct (nearest_even_cases (a * K) b) as [-> | [-> Hhalf]]; lia.
Qed.

Lemma Qtrunc_binary64_value (m e : Z) :
  (e <= 0)%Z -> (0 <= m)%Z -> Qtrunc (binary64_value m e) = (m / 2 ^ (- e))%Z.
Proof.
  intros He Hm. unfold binary64_value, Qtrunc.
  assert (HK : (0 < 2 ^ (- e))%Z) by (apply Z.pow_pos_nonneg; lia).
  destruct (Z.ltb_spec e 0).
  - cbn [Qnum Qden]. rewrite Z2Pos.id by exact HK.
    apply Z.quot_div_nonneg; lia.
  - replace e with 0%Z by lia. cbn [inject_Z Qnum Qden].
    change (2 ^ 0)%Z with 1%Z. change (2 ^ (- 0))%Z with 1%Z.
    rewrite Z.mul_1_r, Z.quot_1_r, Z.div_1_r. reflexivity.
Qed.

Lemma Qtrunc_opp (q : Q) : Qtrunc (Qopp q) = (- Qtrunc q)%Z.
Proof.
  unfold Qtrunc, Qopp. cbn [Qnum Qden]. apply Z.quot_opp_l. discriminate.
Qed.

(** [int(a / b)] for [|a| < 2^53]: the division returns, and truncating
    its float gives the integer quotient rounded towards zero. *)
Lemma py_truediv_int (a b : Z) :
  (Z.abs a < 2 ^ 53)%Z -> b <> 0%Z ->
  exists q, py_truediv a b = Ok q /\ Qtrunc q = Z.quot a b.
Proof.
  intros Ha Hb. unfold py_truediv.
  destruct (Z.eqb_spec b 0) as [H0 | _]; [contradiction |].
  destruct (@binary64_floor (Z.abs a) (Z.abs b)) as [He [Hm Hdiv]]; [lia | lia |].
  set (m := binary64_significand (Z.abs a) (Z.abs b)) in *.
  set (e := binary64_exponent (Z.abs a) (Z.abs b)) in *.
  assert (Hover : ((0 <=? e) && (2 ^ 1024 <=? m * 2 ^ e))%Z = false).
  { destruct (Z.leb_spec 0 e) as [He0 | He0]; [| reflexivity].
    assert (e = 0%Z) by lia. subst e.
    replace (binary64_exponent (Z.abs a) (Z.abs b)) with 0%Z in *.
    change (- 0)%Z with 0%Z in Hdiv. change (2 ^ 0)%Z with 1%Z in *.
    rewrite Z.div_1_r in Hdiv. rewrite Z.mul_1_r, Hdiv.
    assert (Z.abs a / Z.abs b <= Z.abs a)%Z.
    { apply Z.div_le_upper_bound; [lia |]. nia. }
    assert (2 ^ 53 < 2 ^ 1024)%Z by (apply Z.pow_lt_mono_r; lia).
    destruct (Z.leb_spec (2 ^ 1024) (Z.abs a / Z.abs b)); [lia | reflexivity]. }
  rewrite Hover. eexists. split; [reflexivity |].
  assert (Hq : Qtrunc (binary64_value m e) = (Z.abs a / Z.abs b)%Z)
    by (rewrite Qtrunc_binary64_value by assumption; exact Hdiv).
  rewrite (Z.quot_div a b Hb).
  destruct (Z.ltb_spec (Z.sgn a * Z.sgn b) 0) as [Hneg | Hpos].
  - rewrite Qtrunc_opp, Hq.
    assert (Z.sgn a * Z.sgn b = -1)%Z by (destruct a, b; simpl in *; lia).
    lia.
  - rewrite Hq.
    destruct (Z.eq_dec a 0) as [-> | Hane].
    + simpl. rewrite Z.div_0_l by lia. reflexivity.
    + assert (Z.sgn a * Z.sgn b = 1)%Z
        by (destruct a, b; simpl in *; try lia; congruence).
      lia.
Qed.

(** [int(np.mean(v))] for integers of a sum below [2^53]: the float
    quotient of the sum by the length truncates to what the exact quotient
    truncates to. *)
Lemma int_of_float_mean (v : list Z) :
  v <> [] -> (Z.abs (Zsum v) < 2 ^ 53)%Z ->
  exists q, py_truediv (Zsum v) (Z.of_nat (length v)) = Ok q /\
            py_int (Some q) = py_int (mean v).
Proof.
  intros Hv Hsum.
  assert (Hlen : Z.of_nat (length v) <> 0%Z) by (destruct v; [congruence | simpl; lia]).
  destruct (py_truediv_int (Zsum v) Hsum Hlen) as [q [Hq Ht]].
  exists q. split; [exact Hq |].
  unfold mean. destruct v as [| x v]; [congruence |].
  unfold py_int. rewrite Ht, Qtrunc_div by exact Hlen. reflexivity.
Qed.

(** With a non-negative dividend and a positive divisor [int(a / b)] is
    not negative, whatever the size of the operands. *)
Lemma py_truediv_nonneg (a b : Z) (q : Q) :
  (0 <= a)%Z -> (0 < b)%Z -> py_truediv a b = Ok q -> (0 <= Qtrunc q)%Z.
Proof.
  intros Ha Hb. unfold py_truediv.
  destruct (Z.eqb_spec b 0) as [H0 | _]; [lia |].
  set (m := binary64_significand (Z.abs a) (Z.abs b)).
  set (e := binary64_exponent (Z.abs a) (Z.abs b)).
  destruct ((0 <=? e) && (2 ^ 1024 <=? m * 2 ^ e))%Z; [discriminate |].
  assert (Hm : (0 <= m)%Z) by (apply binary64_significand_nonneg; lia).
  assert (Hs : (0 <= Z.sgn a * Z.sgn b)%Z) by (destruct a, b; simpl; lia).
  destruct (Z.ltb_spec (Z.sgn a * Z.sgn b) 0); [lia |].
  intros Hq. injection Hq as <-.
  unfold binary64_value, Qtrunc.
  destruct (e <? 0)%Z; cbn [Qnum Qden inject_Z].
  - apply Z.quot_pos; lia.
  - apply Z.quot_pos; [| lia]. apply Z.mul_nonneg_nonneg; [exact Hm |].
    apply Z.pow_nonneg. lia.
Qed.

(** ** [crop_pianoroll] and [pad_pianoroll] *)

Lemma hstack2_ok (a b : ndarray2 Q) :
  shape0 a = shape0 b ->
  hstack2 a b =
  Ok (tab2 (shape0 a) (shape1 a + shape1 b)
           (fun i j => if (j <? shape1 a)%nat then get2 0%Q a i j
                       else get2 0%Q b i (j - shape1 a))).
Proof.
  intros H. unfold hstack2. rewrite H, Nat.eqb_refl. reflexivity.
Qed.

(** What [pad_pianoroll] returns on the inputs it accepts: the input sits
    [min_pitch - 1] columns from the left. *)
Lemma pad_pianoroll_ok (P : ndarray2 Q) (min_pitch max_pitch : Z) :
  (1 <= min_pitch)%Z -> (max_pitch <= 128)%Z ->
  Z.of_nat (shape1 P) = (max_pitch - min_pitch + 1)%Z ->
  pad_pianoroll P min_pitch max_pitch =
  Ok (tab2 (shape0 P) 128
           (fun i j =>
              if (j <? Z.to_nat (min_pitch - 1) + shape1 P)%nat
              then (if (j <? Z.to_nat (min_pitch - 1))%nat then 0%Q
                    else get2 0%Q P i (j - Z.to_nat (min_pitch - 1)))
              else 0%Q)).
Proof.
  intros Hmin Hmax Hshape. unfold pad_pianoroll.
  rewrite Hshape, Z.eqb_refl. cbn [assert bind].
  rewrite zeros_ok by lia. cbn [bind]. rewrite zeros_ok by lia. cbn [bind].
  unfold hstack. rewrite hstack2_ok by (simpl; lia). cbn [bind].
  rewrite hstack2_ok by (simpl; lia). cbn [bind].
  rewrite !shape0_tab2, !shape1_tab2, Nat2Z.id.
  assert (Hw : Z.to_nat (min_pitch - 1) + shape1 P + Z.to_nat (128 - max_pitch) = 128)
    by lia.
  rewrite Hw. cbn [Nat.eqb assert bind]. f_equal.
  apply tab2_ext. intros i j Hi Hj.
  destruct (Nat.ltb_spec j (Z.to_nat (min_pitch - 1) + shape1 P)) as [Hj1 | Hj1].
  - rewrite get2_tab2 by lia.
    destruct (Nat.ltb_spec j (Z.to_nat (min_pitch - 1))) as [Hj2 | Hj2].
    + rewrite get2_tab2 by lia. reflexivity.
    + reflexivity.
  - rewrite get2_tab2 by lia. reflexivity.
Qed.



(** C8: cropping [ramp128] to the single pitch 1 and padding it back does
    not restore column 1: the value lands in column 0, one semitone low, and
    column 1 is zero; with [min_pitch = 0] the padding raises. *)
Theorem crop_then_pad_shifts :
  (exists out,
     (c <- crop_pianoroll ramp128 1 1 ;; pad_pianoroll c 1 1) = Ok out /\
     get2 0%Q ramp128 0 1 = 1%Q /\
     get2 0%Q out 0 1 = 0%Q /\
     get2 0%Q out 0 0 = 1%Q) /\
  (c <- crop_pianoroll ramp128 0 127 ;; pad_pianoroll c 0 127) = Raise ValueError.
Proof.
  split.
  - eexists. split; [vm_compute; reflexivity |].
    split; [reflexivity |]. split; reflexivity.
  - vm_compute. reflexivity.
Qed.

(** ** [chop_to_unit_multiple] *)

(** What the function does once the division has returned the float [q],
    for a positive [ticks_per_unit]: [M = int(q)] is not negative, and the
    function returns the first [M * ticks_per_unit] ticks unless that is
    more than there are, in which case its first assertion fails. *)
Lemma chop_to_unit_multiple_after_division (P : ndarray2 Q) (ticks_per_unit : Z) (q : Q) :
  (0 < ticks_per_unit)%Z ->
  py_truediv (Z.of_nat (shape0 P)) ticks_per_unit = Ok q ->
  let M := Qtrunc q in
  (0 <= M)%Z /\
  chop_to_unit_multiple P ticks_per_unit =
  if (M * ticks_per_unit <=? Z.of_nat (shape0 P))%Z
  then Ok (M, mk2 (Z.to_nat (M * ticks_per_unit)) (shape1 P)
                  (firstn (Z.to_nat (M * ticks_per_unit)) (rows P)))
  else Raise AssertionError.
Proof.
  intros Hpos Hq M.
  assert (HM : (0 <= M)%Z)
    by (apply (@py_truediv_nonneg (Z.of_nat (shape0 P)) ticks_per_unit q); (lia || exact Hq)).
  split; [exact HM |].
  unfold chop_to_unit_multiple. rewrite Hq. cbn [bind]. fold M.
  destruct (Z.leb_spec (M * ticks_per_unit) (Z.of_nat (shape0 P))) as [Hle | Hgt];
    [| reflexivity].
  cbn [assert bind].
  unfold slice_rows_to. rewrite slice_index_nonneg by nia.
  cbn [shape0 shape1].
  rewrite Z2Nat.id by nia. rewrite Z.eqb_refl, Nat.eqb_refl. reflexivity.
Qed.

(** Whenever the function returns, for a positive [ticks_per_unit], it
    returns a count [M >= 0] with [M * ticks_per_unit <= num_ticks] and
    the first [M * ticks_per_unit] ticks. *)
Lemma chop_to_unit_multiple_inv (P Pt : ndarray2 Q) (ticks_per_unit M : Z) :
  (0 < ticks_per_unit)%Z ->
  chop_to_unit_multiple P ticks_per_unit = Ok (M, Pt) ->
  (0 <= M)%Z /\ (M * ticks_per_unit <= Z.of_nat (shape0 P))%Z /\
  Pt = mk2 (Z.to_nat (M * ticks_per_unit)) (shape1 P)
           (firstn (Z.to_nat (M * ticks_per_unit)) (rows P)).
Proof.
  intros Hpos Hret.
  destruct (py_truediv (Z.of_nat (shape0 P)) ticks_per_unit) as [q | e] eqn:Hq.
  - destruct (chop_to_unit_multiple_after_division P Hpos Hq) as [HM Hchop].
    rewrite Hchop in Hret.
    destruct (Z.leb_spec (Qtrunc q * ticks_per_unit) (Z.of_nat (shape0 P)));
      [| discriminate].
    injection Hret as <- <-. split; [exact HM |]. split; [assumption | reflexivity].
  - unfold chop_to_unit_multiple in Hret. rewrite Hq in Hret. discriminate.
Qed.

(** Below [2^53] ticks the float quotient truncates to the integer
    quotient, and the function returns the floor and the whole units. *)
Lemma chop_to_unit_multiple_ok (P : ndarray2 Q) (ticks_per_unit : Z) :
  (Z.of_nat (shape0 P) < 2 ^ 53)%Z -> (0 < ticks_per_unit)%Z ->
  let M := (Z.of_nat (shape0 P) / ticks_per_unit)%Z in
  chop_to_unit_multiple P ticks_per_unit =
  Ok (M, mk2 (Z.to_nat (M * ticks_per_unit)) (shape1 P)
             (firstn (Z.to_nat (M * ticks_per_unit)) (rows P))).
Proof.
  intros Hsmall Hpos M.
  destruct (@py_truediv_int (Z.of_nat (shape0 P)) ticks_per_unit) as [q [Hq Ht]];
    [lia | lia |].
  rewrite Z.quot_div_nonneg in Ht by lia. fold M in Ht.
  destruct (chop_to_unit_multiple_after_division P Hpos Hq) as [_ Hchop].
  rewrite Hchop, Ht.
  assert (Hle : (M * ticks_per_unit <= Z.of_nat (shape0 P))%Z).
  { rewrite Z.mul_comm. apply Z.mul_div_le. exact Hpos. }
  destruct (Z.leb_spec (M * ticks_per_unit) (Z.of_nat (shape0 P))); [reflexivity | lia].
Qed.

Lemma unit_count_returned (P Pt : ndarray2 Q) (ticks_per_unit M : Z) :
  chop_to_unit_multiple P ticks_per_unit = Ok (M, Pt) ->
  unit_count P ticks_per_unit = Z.to_nat M /\ truncated P ticks_per_unit = Pt.
Proof.
  intros Hret. unfold unit_count, truncated. rewrite Hret. split; reflexivity.
Qed.



(** On every pianoroll of fewer than [2^53] ticks and for a positive
    [ticks_per_unit], [chop_to_unit_multiple] returns
    [M = floor(num_ticks / ticks_per_unit)] and exactly the first
    [M * ticks_per_unit] ticks of the input; [M * ticks_per_unit] does not
    exceed [num_ticks]; fewer ticks than one unit give [M = 0] and an empty
    result; ten ticks in units of four give [M = 2] and eight ticks. *)
Lemma chop_to_unit_multiple_floor (P : ndarray2 Q) (ticks_per_unit : Z) :
  wf2 P -> (Z.of_nat (shape0 P) < 2 ^ 53)%Z -> (0 < ticks_per_unit)%Z ->
  let num_ticks := Z.of_nat (shape0 P) in
  let M := (num_ticks / ticks_per_unit)%Z in
  exists Pt,
    chop_to_unit_multiple P ticks_per_unit = Ok (M, Pt) /\
    wf2 Pt /\
    Z.of_nat (shape0 Pt) = (M * ticks_per_unit)%Z /\
    shape1 Pt = shape1 P /\
    rows Pt = firstn (shape0 Pt) (rows P) /\
    (M * ticks_per_unit <= num_ticks)%Z /\
    (num_ticks < ticks_per_unit -> M = 0 /\ rows Pt = [])%Z /\
    (num_ticks = 10%Z -> ticks_per_unit = 4%Z -> M = 2%Z /\ length (rows Pt) = 8).
Proof.
  intros [Hlen Hrows] Hsmall Hpos num_ticks M.
  assert (HM : (0 <= M)%Z) by (apply Z.div_pos; unfold num_ticks; lia).
  assert (Hle : (M * ticks_per_unit <= num_ticks)%Z).
  { rewrite Z.mul_comm. apply Z.mul_div_le. exact Hpos. }
  eexists. split; [apply chop_to_unit_multiple_ok; assumption |].
  fold num_ticks. fold M. cbn [shape0 shape1 rows].
  assert (Hfirst : length (firstn (Z.to_nat (M * ticks_per_unit)) (rows P))
                   = Z.to_nat (M * ticks_per_unit)).
  { rewrite length_firstn, Hlen. unfold num_ticks in Hle. lia. }
  split.
  { split; cbn [shape0 shape1 rows].
    - exact Hfirst.
    - apply Forall_forall. intros r Hr.
      rewrite Forall_forall in Hrows. apply Hrows.
      rewrite <- (firstn_skipn (Z.to_nat (M * ticks_per_unit)) (rows P)).
      apply in_or_app. left. exact Hr. }
  split; [lia |]. split; [reflexivity |]. split; [reflexivity |].
  split; [exact Hle |]. split.
  - intros Hlt. assert (M0 : M = 0%Z).
    { unfold M. apply Z.div_small. unfold num_ticks in *. lia. }
    split; [exact M0 |]. rewrite M0. reflexivity.
  - intros H10 H4. assert (M2 : M = 2%Z).
    { unfold M. rewrite H10, H4. reflexivity. }
    split; [exact M2 |]. rewrite Hfirst, M2, H4. reflexivity.
Qed.

Lemma chop_to_unit_multiple_floor_example :
  exists Pt,
    chop_to_unit_multiple ten_ticks 4 = Ok (2%Z, Pt) /\ length (rows Pt) = 8.
Proof.
  destruct (@chop_to_unit_multiple_floor ten_ticks 4 (wf2_tab2 _ _ _) eq_refl eq_refl)
    as [Pt [Hchop [_ [_ [_ [_ [_ [_ H10]]]]]]]].
  exists Pt. split; [exact Hchop |].
  destruct (H10 eq_refl eq_refl) as [_ Hlen]. exact Hlen.
Qed.

Lemma shape0_no_pitches (n : Z) :
  (0 <= n)%Z -> Z.of_nat (shape0 (no_pitches n)) = n.
Proof.
  intros Hn. unfold no_pitches. cbn [shape0]. apply Z2Nat.id. exact Hn.
Qed.

Lemma no_pitches_wf (n : Z) : wf2 (no_pitches n).
Proof.
  unfold no_pitches. split; cbn [shape0 shape1 rows].
  - apply repeat_length.
  - apply Forall_forall. intros r Hr. apply repeat_spec in Hr. subst r. reflexivity.
Qed.

(** C3: line 207 computes [M] as [int(num_ticks / ticks_per_unit)], through
    a float.  On the pianoroll of [3 * 2^52 + 2] ticks (and no pitch) with
    [ticks_per_unit = 3] the quotient rounds up to the float
    [4503599627370497], one more than the floor, and the function fails its
    own assertion [M * ticks_per_unit <= num_ticks]; on the pianoroll of
    [2^53 + 1] ticks with [ticks_per_unit = 1] it returns [M = 2^53], one
    less than the floor, and drops the last tick. *)
Theorem chop_to_unit_multiple_float_quotient :
  let long := no_pitches (3 * 2 ^ 52 + 2) in
  let longer := no_pitches (2 ^ 53 + 1) in
  wf2 long /\
  Z.of_nat (shape0 long) = (3 * 2 ^ 52 + 2)%Z /\
  (Z.of_nat (shape0 long) / 3 = 4503599627370496)%Z /\
  chop_to_unit_multiple long 3 = Raise AssertionError /\
  wf2 longer /\
  Z.of_nat (shape0 longer) = (2 ^ 53 + 1)%Z /\
  (Z.of_nat (shape0 longer) / 1 = 2 ^ 53 + 1)%Z /\
  exists Pt,
    chop_to_unit_multiple longer 1 = Ok ((2 ^ 53)%Z, Pt) /\
    Z.of_nat (shape0 Pt) = (2 ^ 53)%Z.
Proof.
  intros long longer.
  assert (Hlong : Z.of_nat (shape0 long) = (3 * 2 ^ 52 + 2)%Z)
    by (apply shape0_no_pitches; intros H; vm_compute in H; discriminate).
  assert (Hlonger : Z.of_nat (shape0 longer) = (2 ^ 53 + 1)%Z)
    by (apply shape0_no_pitches; intros H; vm_compute in H; discriminate).
  split; [apply no_pitches_wf |]. split; [exact Hlong |].
  split; [rewrite Hlong; reflexivity |]. split.
  { assert (Hq : py_truediv (Z.of_nat (shape0 long)) 3 = Ok (inject_Z 4503599627370497))
      by (rewrite Hlong; vm_compute; reflexivity).
    destruct (@chop_to_unit_multiple_after_division long 3 _ eq_refl Hq) as [_ Hchop].
    rewrite Hchop, Hlong. reflexivity. }
  split; [apply no_pitches_wf |]. split; [exact Hlonger |].
  split; [rewrite Hlonger; reflexivity |].
  assert (Hq : py_truediv (Z.of_nat (shape0 longer)) 1 = Ok (inject_Z (2 ^ 53)))
    by (rewrite Hlonger; vm_compute; reflexivity).
  destruct (@chop_to_unit_multiple_after_division longer 1 _ eq_refl Hq) as [_ Hchop].
  eexists. split.
  - rewrite Hchop, Hlonger. reflexivity.
  - cbn [shape0]. apply Z2Nat.id. intros H; vm_compute in H; discriminate.
Qed.

(** ** [shuffle_left_right] *)

Lemma mask_assign_length (A : Type) (mask : list bool) (dst src : list A) :
  length (mask_assign mask dst src) = length dst.
Proof.
  revert dst src; induction mask as [| b mask IH]; intros dst src.
  - destruct dst; reflexivity.
  - destruct dst as [| d dst]; [reflexivity |].
    destruct src as [| s src]; [reflexivity |].
    simpl. f_equal. apply IH.
Qed.

Lemma mask_assign_nth (A : Type) (mask : list bool) (dst src : list A) (i : nat) (d : A) :
  length mask = length dst -> length dst = length src -> i < length dst ->
  nth i (mask_assign mask dst src) d =
  if nth i mask false then nth i src d else nth i dst d.
Proof.
  revert dst src i; induction mask as [| b mask IH]; intros dst src i Hm Hs Hi.
  - destruct dst; simpl in *; [lia | discriminate].
  - destruct dst as [| x dst]; [discriminate |].
    destruct src as [| s src]; [discriminate |].
    destruct i as [| i]; simpl.
    + destruct b; reflexivity.
    + apply IH; simpl in *; lia.
Qed.

Lemma mask_assign_map (A X : Type) (f : X -> bool) (g h : X -> A) (l : list X) :
  mask_assign (map f l) (map g l) (map h l) =
  map (fun x => if f x then h x else g x) l.
Proof.
  induction l as [| x l IH]; simpl; [reflexivity |]. f_equal. exact IH.
Qed.

Lemma shuffle_left_right_ok (rng : nat -> bool) (L R : ndarray3) :
  dim0 L = dim0 R -> dim1 L = dim1 R -> dim2 L = dim2 R ->
  let bool_array := map rng (seq 0 (dim0 L)) in
  shuffle_left_right rng L R =
  Ok (mk3 (dim0 L) (dim1 L) (dim2 L) (mask_assign bool_array (units L) (units R)),
      mk3 (dim0 R) (dim1 R) (dim2 R) (mask_assign bool_array (units R) (units L))).
Proof.
  intros H0 H1 H2 bool_array. subst bool_array.
  unfold shuffle_left_right, mask_assign3. cbv zeta.
  rewrite !length_map, !length_seq, <- H0, <- H1, <- H2, !Nat.eqb_refl.
  cbn [negb andb bind dim0 dim1 dim2].
  reflexivity.
Qed.

(** C4: on two arrays of one shape, for every realization [rng] of the
    random boolean vector, [shuffle_left_right] returns two arrays of that
    shape in which position [i] holds the pair [(left[i], right[i])],
    exchanged exactly when [rng i] is true; no unit moves to another
    index. *)
Theorem shuffle_left_right_exchange (rng : nat -> bool) (L R : ndarray3) :
  length (units L) = dim0 L -> length (units R) = dim0 R ->
  dim0 L = dim0 R -> dim1 L = dim1 R -> dim2 L = dim2 R ->
  exists input_units comp_units,
    shuffle_left_right rng L R = Ok (input_units, comp_units) /\
    (dim0 input_units, dim1 input_units, dim2 input_units) = (dim0 L, dim1 L, dim2 L) /\
    (dim0 comp_units, dim1 comp_units, dim2 comp_units) = (dim0 L, dim1 L, dim2 L) /\
    length (units input_units) = dim0 L /\
    length (units comp_units) = dim0 L /\
    forall i, i < dim0 L ->
      (nth i (units input_units) [], nth i (units comp_units) []) =
      (if rng i
       then (nth i (units R) [], nth i (units L) [])
       else (nth i (units L) [], nth i (units R) [])) /\
      ((nth i (units input_units) [], nth i (units comp_units) []) =
       (nth i (units L) [], nth i (units R) []) \/
       (nth i (units input_units) [], nth i (units comp_units) []) =
       (nth i (units R) [], nth i (units L) [])).
Proof.
  intros HL HR H0 H1 H2.
  do 2 eexists. split; [apply shuffle_left_right_ok; assumption |].
  cbn [dim0 dim1 dim2 units].
  split; [reflexivity |]. split; [congruence |].
  split; [rewrite mask_assign_length; exact HL |].
  split; [rewrite mask_assign_length; congruence |].
  intros i Hi.
  assert (Hlen : length (map rng (seq 0 (dim0 L))) = dim0 L)
    by (rewrite length_map, length_seq; reflexivity).
  assert (Hpair :
    (nth i (mask_assign (map rng (seq 0 (dim0 L))) (units L) (units R)) [],
     nth i (mask_assign (map rng (seq 0 (dim0 L))) (units R) (units L)) []) =
    (if rng i
     then (nth i (units R) [], nth i (units L) [])
     else (nth i (units L) [], nth i (units R) []))).
  { rewrite !mask_assign_nth by congruence.
    rewrite (nth_map_seq rng 0 false Hi). simpl.
    destruct (rng i); reflexivity. }
  split; [exact Hpair |].
  rewrite Hpair. destruct (rng i); [right | left]; reflexivity.
Qed.

Lemma shuffle_left_right_exchange_witness :
  shuffle_left_right (fun i => Nat.odd i) lefts rights =
  Ok (mk3 3 1 1 [[[1%Q]]; [[20%Q]]; [[3%Q]]],
      mk3 3 1 1 [[[10%Q]]; [[2%Q]]; [[30%Q]]]).
Proof.
  destruct (@shuffle_left_right_exchange (fun i => Nat.odd i) lefts rights
              eq_refl eq_refl eq_refl eq_refl eq_refl)
    as [i [c [Hs _]]].
  rewrite Hs. vm_compute in Hs. inversion Hs. reflexivity.
Defined.

(** ** [create_units] *)







Lemma zeros_check_ok (a b c : Z) :
  (0 <= a)%Z -> (0 <= b)%Z -> (0 <= c)%Z -> zeros_check [a; b; c] = Ok tt.
Proof.
  intros Ha Hb Hc. unfold zeros_check; simpl.
  destruct (Z.ltb_spec a 0); [lia |]. destruct (Z.ltb_spec b 0); [lia |].
  destruct (Z.ltb_spec c 0); [lia |]. reflexivity.
Qed.

Lemma reshape3_ok (a : ndarray2 Q) (m t : Z) (N : nat) :
  shape1 a = N -> (0 <= m)%Z -> (0 <= t)%Z ->
  shape0 a = Z.to_nat m * Z.to_nat t ->
  reshape3 a m t (Z.of_nat N) =
  Ok (mk3 (Z.to_nat m) (Z.to_nat t) N
          (map (unit_at a (Z.to_nat t) N) (seq 0 (Z.to_nat m)))).
Proof.
  intros HN Hm Ht Hsize. unfold reshape3.
  destruct (Z.ltb_spec m 0); [lia |]. destruct (Z.ltb_spec t 0); [lia |].
  destruct (Z.ltb_spec (Z.of_nat N) 0); [lia |]. cbn [orb].
  assert (Hprod : (m * t * Z.of_nat N)%Z = Z.of_nat (shape0 a * shape1 a)).
  { rewrite Hsize, HN, !Nat2Z.inj_mul, !Z2Nat.id by lia. reflexivity. }
  rewrite Hprod, Z.eqb_refl. cbn [negb]. rewrite Nat2Z.id. f_equal. f_equal.
  apply map_ext_in. intros u _. unfold unit_at.
  apply map_ext_in. intros i _.
  apply map_ext_in. intros j Hj. apply in_seq in Hj. rewrite HN.
  set (x := u * Z.to_nat t + i).
  assert (Hdiv : (x * N + j) / N = x).
  { symmetry. apply (Nat.div_unique _ _ _ j); lia. }
  assert (Hmod : (x * N + j) mod N = j).
  { symmetry. apply (Nat.mod_unique _ _ x); lia. }
  rewrite Hdiv, Hmod. reflexivity.
Qed.



(** A song of exactly one unit: [squeeze] turns the vector of means into a
    zero-dimensional array, the boolean index then adds an axis, and the
    shape assertion fails. *)
Lemma create_units_one_unit_raises (np_mean : list (list Q) -> option Q)
  (rng : nat -> bool) (P Pt : ndarray2 Q) (N : nat)
  (ticks_per_unit partition_note min_pitch M : Z) (filter_threshold : Q) :
  shape1 P = N -> (0 < ticks_per_unit)%Z ->
  chop_to_unit_multiple P ticks_per_unit = Ok (M, Pt) ->
  unit_count P ticks_per_unit = 1 ->
  create_units np_mean rng P (Z.of_nat N) ticks_per_unit partition_note min_pitch
               filter_threshold = Raise AssertionError.
Proof.
  intros HN Hpos Hchop HM.
  destruct (chop_to_unit_multiple_inv P Hpos Hchop) as [HMz [Hle HPt]].
  destruct (unit_count_returned P ticks_per_unit Hchop) as [Hcount _].
  rewrite Hcount in HM.
  subst N. unfold create_units.
  rewrite Z.eqb_refl. cbn [assert bind].
  rewrite Hchop. cbn [bind].
  set (k := (partition_note - min_pitch)%Z).
  rewrite zeros_check_ok by lia. cbn [bind].
  assert (Hsize : Z.to_nat (M * ticks_per_unit) = Z.to_nat M * Z.to_nat ticks_per_unit)
    by (apply Z2Nat.inj_mul; lia).
  subst Pt.
  set (Pt := mk2 _ _ _).
  rewrite (@reshape3_ok (zero_cols_from Pt k) M
             ticks_per_unit (shape1 P) eq_refl HMz (Z.lt_le_incl _ _ Hpos) Hsize).
  cbn [bind].
  rewrite (@reshape3_ok (zero_cols_to Pt k) M
             ticks_per_unit (shape1 P) eq_refl HMz (Z.lt_le_incl _ _ Hpos) Hsize).
  cbn [bind].
  rewrite shuffle_left_right_ok by reflexivity.
  cbn [bind dim0 dim1 dim2 units].
  rewrite !mask_assign_map.
  unfold mean12. cbn [dim0 dim1 dim2 units]. rewrite map_map.
  rewrite HM.
  cbn [seq map squeeze squeezed_map bool_index bind shape_of tuple_eqb].
  rewrite !andb_false_r. reflexivity.
Qed.

(** C5: on [one_tick], a song of exactly one unit, [create_units] raises
    its own shape assertion for every realization of the exchange and
    whatever float [np.mean] returns, although the unit's mean (1, or 0
    after an exchange) is compared with the threshold as for any other
    song. *)
Theorem create_units_one_tick_raises (np_mean : list (list Q) -> option Q)
  (rng : nat -> bool) :
  create_units np_mean rng one_tick 1 1 1 0 0%Q = Raise AssertionError.
Proof.
  apply (@create_units_one_unit_raises np_mean rng one_tick
           (mk2 1 1 [[1%Q]]) 1 1 1 0 1 0%Q); reflexivity.
Qed.









(** ** [pianoroll_2_events] *)

Lemma append_at_ok (E : list (list Message)) (t : nat) (msg : Message) :
  t < length E ->
  exists E1, append_at E t msg = Ok E1 /\ length E1 = length E /\
    forall t', nth t' E1 [] = nth t' E [] ++ (if t' =? t then [msg] else []).
Proof.
  revert t; induction E as [| bucket E IH]; intros t Ht; simpl in Ht; [lia |].
  destruct t as [| t]; cbn [append_at].
  - eexists. split; [reflexivity |]. split; [reflexivity |].
    intros [| t']; simpl; [reflexivity | rewrite app_nil_r; reflexivity].
  - destruct (IH t) as [E1 [Happ [Hlen Hnth]]]; [lia |].
    rewrite Happ. cbn [bind]. eexists. split; [reflexivity |].
    split; [simpl; f_equal; exact Hlen |].
    intros [| t']; [simpl; rewrite app_nil_r; reflexivity |].
    cbn [nth]. rewrite Hnth. reflexivity.
Qed.

Lemma fold_left_Zadd (l : list Z) (a : Z) :
  fold_left Z.add l a = (a + fold_left Z.add l 0)%Z.
Proof.
  revert a; induction l as [| y l IH]; intros a; cbn [fold_left]; [lia |].
  rewrite (IH (a + y)%Z), (IH (0 + y)%Z). lia.
Qed.

Lemma Zsum_cons (x : Z) (l : list Z) : Zsum (x :: l) = (x + Zsum l)%Z.
Proof.
  unfold Zsum. cbn [fold_left]. rewrite fold_left_Zadd. lia.
Qed.

Lemma Zsum_bounds (l : list Z) (hi : Z) :
  (forall x, In x l -> 0 <= x <= hi)%Z ->
  (0 <= Zsum l <= hi * Z.of_nat (length l))%Z.
Proof.
  induction l as [| x l IH]; intros H.
  - unfold Zsum; simpl. lia.
  - rewrite Zsum_cons. cbn [length].
    assert (Hx : (0 <= x <= hi)%Z) by (apply H; left; reflexivity).
    assert (Hl : (0 <= Zsum l <= hi * Z.of_nat (length l))%Z)
      by (apply IH; intros y Hy; apply H; right; exact Hy).
    lia.
Qed.

Lemma Zsum_lower (l : list Z) (lo : Z) :
  (forall x, In x l -> lo <= x)%Z -> (lo * Z.of_nat (length l) <= Zsum l)%Z.
Proof.
  induction l as [| x l IH]; intros H.
  - unfold Zsum; simpl. lia.
  - rewrite Zsum_cons. cbn [length].
    assert (Hx : (lo <= x)%Z) by (apply H; left; reflexivity).
    assert (Hl : (lo * Z.of_nat (length l) <= Zsum l)%Z)
      by (apply IH; intros y Hy; apply H; right; exact Hy).
    lia.
Qed.

Lemma Zsum_const (v : Z) (l : list Z) :
  (forall x, In x l -> x = v) -> Zsum l = (v * Z.of_nat (length l))%Z.
Proof.
  induction l as [| x l IH]; intros H.
  - unfold Zsum; simpl. lia.
  - rewrite Zsum_cons. cbn [length].
    rewrite (H x) by (left; reflexivity).
    rewrite IH by (intros y Hy; apply H; right; exact Hy). lia.
Qed.

Lemma run_length_exact (on : nat -> bool) (m : nat) :
  forall fuel t,
    m <= fuel ->
    (forall i, t <= i < t + m -> on i = true) ->
    (m < fuel -> on (t + m) = false) ->
    run_length on fuel t = m.
Proof.
  induction m as [| m IH]; intros fuel t Hfuel Hon Hoff.
  - destruct fuel as [| fuel]; [reflexivity |]. cbn [run_length].
    rewrite Nat.add_0_r in Hoff. rewrite Hoff by lia. reflexivity.
  - destruct fuel as [| fuel]; [lia |]. cbn [run_length].
    rewrite Hon by lia. f_equal. apply IH.
    + lia.
    + intros i Hi. apply Hon. lia.
    + intros Hlt. replace (S t + m) with (t + S m) by lia. apply Hoff. lia.
Qed.

Lemma nonzero_map_seq (g : nat -> bool) (n : nat) :
  nonzero (map g (seq 0 n)) = filter g (seq 0 n).
Proof.
  unfold nonzero. rewrite length_map, length_seq.
  apply filter_ext_in. intros i Hi. apply in_seq in Hi.
  apply (nth_map_seq g 0 false). lia.
Qed.

(** The loop over [enumerate(note_ons)], which looks [note_offs[idx]] up,
    visits the note-ons and note-offs in pairs. *)
Lemma enumerate_pairs (clipped : ndarray2 Z) (num_ticks p : nat) (pitch : Z)
  (rest_on : list nat) :
  forall (pre_on pre_off rest_off : list nat) (E : list (list Message)),
    length pre_on = length pre_off ->
    length rest_on = length rest_off ->
    for_each (note_events clipped num_ticks p pitch
                (pre_on ++ rest_on) (pre_off ++ rest_off))
             (combine (seq (length pre_on) (length rest_on)) rest_on) E =
    for_each (note_pair_events clipped num_ticks p pitch)
             (combine rest_on rest_off) E.
Proof.
  induction rest_on as [| a rest_on IH]; intros pre_on pre_off rest_off E Hpre Hrest.
  - reflexivity.
  - destruct rest_off as [| b rest_off]; [discriminate |].
    cbn [length seq combine for_each].
    assert (Hstep :
      note_events clipped num_ticks p pitch (pre_on ++ a :: rest_on)
                  (pre_off ++ b :: rest_off) E (length pre_on, a) =
      note_pair_events clipped num_ticks p pitch E (a, b)).
    { unfold note_pair_events, note_events, index. cbn [fst snd nth_error].
      rewrite Hpre at 1. rewrite !nth_error_app2 by lia.
      rewrite Hpre, Nat.sub_diag. reflexivity. }
    rewrite Hstep.
    destruct (note_pair_events clipped num_ticks p pitch E (a, b)) as [E1 | e];
      cbn [bind]; [| reflexivity].
    specialize (IH (pre_on ++ [a]) (pre_off ++ [b]) rest_off E1).
    rewrite <- !app_assoc in IH. cbn [app] in IH.
    rewrite length_app in IH. cbn [length] in IH.
    rewrite Nat.add_1_r in IH. apply IH.
    + rewrite !length_app. cbn [length]. lia.
    + simpl in Hrest. lia.
Qed.

Section Scan.

(** The scan over the padded first difference of one pitch: [on] tells
    whether the pitch sounds at a tick, [step] handles one note and [msgs]
    is what a tick is expected to receive. *)
Variable on : nat -> bool.
Variable T : nat.
Variable msgs : nat -> list Message.
Variable step : list (list Message) -> nat * nat -> result (list (list Message)).

Hypothesis on_end : forall t, T <= t -> on t = false.

Hypothesis msgs_quiet :
  forall t, rising on t = false -> falling on t = false -> msgs t = [].

Hypothesis step_ok :
  forall E a b,
    length E = T -> a < b -> b <= T -> rising on a = true ->
    (forall t, a <= t < b -> on t = true) -> on b = false ->
    exists E1, step E (a, b) = Ok E1 /\ length E1 = T /\
      forall t, nth t E1 [] =
                nth t E [] ++
                (if (t =? a) || ((t =? b) && (b <? T)) then msgs t else []).

Lemma scan_edges (n : nat) :
  forall k, k + n = T + 1 ->
    (before on k = false ->
     length (filter (rising on) (seq k n)) = length (filter (falling on) (seq k n)) /\
     forall E, length E = T ->
       exists E',
         for_each step (combine (filter (rising on) (seq k n))
                                (filter (falling on) (seq k n))) E = Ok E' /\
         length E' = T /\
         forall t, nth t E' [] =
                   nth t E [] ++ (if (k <=? t) && (t <? T) then msgs t else []))
    /\
    (before on k = true ->
     exists b offs,
       filter (falling on) (seq k n) = b :: offs /\
       k <= b <= T /\
       (forall t, k <= t < b -> on t = true) /\
       on b = false /\
       length (filter (rising on) (seq k n)) = length offs /\
       forall E, length E = T ->
         exists E',
           for_each step (combine (filter (rising on) (seq k n)) offs) E = Ok E' /\
           length E' = T /\
           forall t, nth t E' [] =
                     nth t E [] ++ (if (b <? t) && (t <? T) then msgs t else [])).
Proof.
  induction n as [| n IH]; intros k Hk.
  - assert (k = S T) by lia. subst k. cbn [before seq filter combine for_each].
    rewrite on_end by lia. split; [| discriminate].
    intros _. split; [reflexivity |].
    intros E HE. exists E. split; [reflexivity |]. split; [exact HE |].
    intros t. destruct (Nat.leb_spec (S T) t); destruct (Nat.ltb_spec t T);
      try lia; cbn [andb]; rewrite app_nil_r; reflexivity.
  - destruct (IH (S k)) as [IHA IHB]; [lia |].
    change (before on (S k)) with (on k) in IHA, IHB.
    cbn [seq filter].
    split; intros Hbef.
    + destruct (on k) eqn:Hon.
      * assert (Hr : rising on k = true) by (unfold rising; rewrite Hon, Hbef; reflexivity).
        assert (Hf : falling on k = false) by (unfold falling; rewrite Hon; reflexivity).
        rewrite Hr, Hf.
        destruct (IHB eq_refl) as [b [offs [Hoffs [Hb [Hall [Honb [Hlen Hloop]]]]]]].
        rewrite Hoffs. cbn [length combine for_each].
        split; [f_equal; exact Hlen |].
        assert (HkT : k < T).
        { destruct (Nat.lt_ge_cases k T) as [Hlt | Hge]; [exact Hlt |].
          rewrite on_end in Hon by exact Hge. discriminate. }
        assert (Hall' : forall t, k <= t < b -> on t = true).
        { intros t Ht. destruct (Nat.eq_dec t k) as [-> | Hne];
            [exact Hon | apply Hall; lia]. }
        assert (Hquiet : forall t, k < t < b -> msgs t = []).
        { intros t Ht. apply msgs_quiet.
          - unfold rising. destruct t as [| t]; [lia |]. cbn [before].
            rewrite (Hall' t) by lia. rewrite andb_false_r. reflexivity.
          - unfold falling. rewrite Hall' by lia. reflexivity. }
        intros E HE.
        destruct (step_ok E HE (a := k) (b := b)) as [E1 [Hs [HE1 Hn1]]];
          [lia | lia | exact Hr | exact Hall' | exact Honb |].
        rewrite Hs. cbn [bind].
        destruct (Hloop E1 HE1) as [E' [Hl [HE' Hn']]].
        exists E'. split; [exact Hl |]. split; [exact HE' |].
        intros t. rewrite Hn', Hn1, <- app_assoc. f_equal.
        destruct (Nat.eqb_spec t k); destruct (Nat.eqb_spec t b);
          destruct (Nat.ltb_spec b T); destruct (Nat.ltb_spec b t);
          destruct (Nat.leb_spec k t); destruct (Nat.ltb_spec t T);
          cbn [orb andb app]; rewrite ?app_nil_r; try reflexivity; try lia;
          rewrite Hquiet by lia; reflexivity.
      * assert (Hr : rising on k = false) by (unfold rising; rewrite Hon; reflexivity).
        assert (Hf : falling on k = false)
          by (unfold falling; rewrite Hbef; apply andb_false_r).
        rewrite Hr, Hf.
        destruct (IHA eq_refl) as [Hlen Hloop].
        split; [exact Hlen |].
        intros E HE. destruct (Hloop E HE) as [E' [Hl [HE' Hn']]].
        exists E'. split; [exact Hl |]. split; [exact HE' |].
        intros t. rewrite Hn'. f_equal.
        destruct (Nat.leb_spec (S k) t); destruct (Nat.leb_spec k t);
          destruct (Nat.ltb_spec t T); cbn [andb]; try reflexivity; try lia.
        assert (t = k) by lia. subst t. symmetry. apply msgs_quiet; assumption.
    + destruct (on k) eqn:Hon.
      * assert (Hr : rising on k = false)
          by (unfold rising; rewrite Hbef; apply andb_false_r).
        assert (Hf : falling on k = false) by (unfold falling; rewrite Hon; reflexivity).
        rewrite Hr, Hf.
        destruct (IHB eq_refl) as [b [offs [Hoffs [Hb [Hall [Honb [Hlen Hloop]]]]]]].
        exists b, offs. split; [exact Hoffs |]. split; [lia |].
        split.
        { intros t Ht. destruct (Nat.eq_dec t k) as [-> | Hne];
            [exact Hon | apply Hall; lia]. }
        split; [exact Honb |]. split; [exact Hlen | exact Hloop].
      * assert (Hr : rising on k = false) by (unfold rising; rewrite Hon; reflexivity).
        assert (Hf : falling on k = true) by (unfold falling; rewrite Hon, Hbef; reflexivity).
        rewrite Hr, Hf.
        destruct (IHA eq_refl) as [Hlen Hloop].
        exists k, (filter (falling on) (seq (S k) n)).
        split; [reflexivity |]. split; [lia |].
        split; [intros t Ht; lia |]. split; [exact Hon |].
        split; [exact Hlen |]. exact Hloop.
Qed.

End Scan.

Lemma axis_index_nat (n p : nat) : p < n -> axis_index n (Z.of_nat p) = Ok p.
Proof.
  intros Hp. unfold axis_index.
  destruct (Z.leb_spec 0 (Z.of_nat p)); [| lia].
  destruct (Z.ltb_spec (Z.of_nat p) (Z.of_nat n)); [| lia].
  cbn [andb]. rewrite Nat2Z.id. reflexivity.
Qed.

Lemma axis_index_high (n : nat) (k : Z) :
  (Z.of_nat n <= k)%Z -> axis_index n k = Raise IndexError.
Proof.
  intros Hk. unfold axis_index.
  destruct (Z.leb_spec 0 k); [| lia].
  destruct (Z.ltb_spec k (Z.of_nat n)); [lia |].
  destruct (Z.ltb_spec k 0); [lia |]. reflexivity.
Qed.

Lemma mido_Message_ok (ty : string) (n v t : Z) :
  (0 <= n <= 127)%Z -> (0 <= v <= 127)%Z ->
  mido_Message ty n v t = Ok (mkMessage ty n v t).
Proof.
  intros Hn Hv. unfold mido_Message.
  destruct (Z.leb_spec 0 n); [| lia]. destruct (Z.leb_spec n 127); [| lia].
  destruct (Z.leb_spec 0 v); [| lia]. destruct (Z.leb_spec v 127); [| lia].
  reflexivity.
Qed.

Lemma py_int_mean (l : list Z) :
  l <> [] -> py_int (mean l) = Ok (Z.quot (Zsum l) (Z.of_nat (length l))).
Proof.
  intros Hl. destruct l as [| x l]; [congruence |].
  unfold mean, py_int. rewrite Qtrunc_div; [reflexivity |]. simpl length. lia.
Qed.

Lemma quot_velocity (s n : Z) :
  (0 < n)%Z -> (0 <= s <= 127 * n)%Z -> (0 <= Z.quot s n <= 127)%Z.
Proof.
  intros Hn Hs. rewrite Z.quot_div_nonneg by lia. split.
  - apply Z.div_pos; lia.
  - apply Z.div_le_upper_bound; lia.
Qed.

Section Events.

Variable P : ndarray2 Q.

Local Abbreviation N := (shape0 P).
Local Abbreviation T := (shape1 P).
Local Abbreviation clipped := (map2d Qtrunc (transpose 0%Q P)).
Local Abbreviation diff :=
  (diff_axis0
     (map2d (fun b : bool => if b then 1%Z else 0%Z)
            (pad_axis0 (map2d (fun z => negb (z =? 0)%Z) clipped)))).

Lemma clipped_tab : clipped = tab2 T N (fun t p => clipped_at P p t).
Proof.
  unfold transpose. rewrite map2d_tab2. reflexivity.
Qed.

Lemma diff_tab :
  diff = tab2 (T + 1) N
              (fun t p => (Z.b2z (on_at P p t) - Z.b2z (before (on_at P p) t))%Z).
Proof.
  rewrite clipped_tab, map2d_tab2. unfold pad_axis0.
  rewrite shape0_tab2, shape1_tab2, map2d_tab2. unfold diff_axis0.
  rewrite shape0_tab2, shape1_tab2.
  replace (T + 2 - 1) with (T + 1) by lia.
  apply tab2_ext. intros t p Ht Hp.
  rewrite (@get2_tab2 Z 0%Z (T + 2) N _ (t + 1) p) by lia.
  rewrite (@get2_tab2 Z 0%Z (T + 2) N _ t p) by lia.
  f_equal.
  - destruct (Nat.leb_spec 1 (t + 1)); [| lia]. unfold on_at.
    destruct (Nat.leb_spec (t + 1) T); destruct (Nat.ltb_spec t T); try lia;
      cbn [andb]; [| reflexivity].
    rewrite get2_tab2 by lia. replace (t + 1 - 1) with t by lia. reflexivity.
  - destruct t as [| t]; [reflexivity |].
    destruct (Nat.leb_spec 1 (S t)); [| lia].
    destruct (Nat.leb_spec (S t) T); [| lia]. cbn [andb before]. unfold on_at.
    rewrite get2_tab2 by lia. replace (S t - 1) with t by lia.
    destruct (Nat.ltb_spec t T); [| lia]. reflexivity.
Qed.

Lemma on_at_end (p t : nat) : T <= t -> on_at P p t = false.
Proof.
  intros Ht. unfold on_at. destruct (Nat.ltb_spec t T); [lia | reflexivity].
Qed.

Lemma note_messages_quiet (p t : nat) :
  rising (on_at P p) t = false -> falling (on_at P p) t = false ->
  note_messages P p t = [].
Proof.
  intros Hr Hf. unfold note_messages. rewrite Hr, Hf. reflexivity.
Qed.

Hypothesis valid : valid_pianoroll P.
Hypothesis width : N <= 128.

(** One note: the note-on with the mean velocity of the run, and the
    note-off unless the run reaches the last tick. *)
Lemma note_pair_events_ok (p : nat) (E : list (list Message)) (a b : nat) :
  p < N -> length E = T -> a < b -> b <= T ->
  rising (on_at P p) a = true ->
  (forall t, a <= t < b -> on_at P p t = true) ->
  on_at P p b = false ->
  exists E1,
    note_pair_events clipped T p (Z.of_nat p) E (a, b) = Ok E1 /\
    length E1 = T /\
    forall t, nth t E1 [] =
              nth t E [] ++
              (if (t =? a) || ((t =? b) && (b <? T)) then note_messages P p t else []).
Proof.
  intros Hp HE Hab HbT Hrise Hall Hoff.
  unfold note_pair_events, note_events, index. cbn [fst snd nth_error bind].
  assert (Hslice : column_slice 0%Z clipped a b p =
                   map (clipped_at P p) (seq a (b - a))).
  { unfold column_slice. rewrite clipped_tab, shape0_tab2.
    rewrite !Nat.min_l by lia.
    apply map_ext_in. intros i Hi. apply in_seq in Hi.
    rewrite get2_tab2 by lia. reflexivity. }
  rewrite Hslice.
  set (l := map (clipped_at P p) (seq a (b - a))).
  assert (Hlen : length l = b - a)
    by (unfold l; rewrite length_map, length_seq; reflexivity).
  assert (Hne : l <> []).
  { intros Hnil. rewrite Hnil in Hlen. simpl in Hlen. lia. }
  rewrite py_int_mean by exact Hne. cbn [bind]. rewrite Hlen.
  assert (Hentries : forall x, In x l -> (0 <= x <= 127)%Z).
  { intros x Hx. unfold l in Hx. apply in_map_iff in Hx.
    destruct Hx as [i [<- Hi]]. apply in_seq in Hi. apply valid; lia. }
  pose proof (Zsum_bounds l Hentries) as Hsum. rewrite Hlen in Hsum.
  assert (Hvel : (0 <= Z.quot (Zsum l) (Z.of_nat (b - a)) <= 127)%Z)
    by (apply quot_velocity; lia).
  rewrite mido_Message_ok by lia. cbn [bind].
  assert (Hrun : run_velocity P p a = Z.quot (Zsum l) (Z.of_nat (b - a))).
  { unfold run_velocity.
    rewrite (@run_length_exact (on_at P p) (b - a) (T - a) a).
    - reflexivity.
    - lia.
    - intros i Hi. apply Hall. lia.
    - intros _. replace (a + (b - a)) with b by lia. exact Hoff. }
  assert (Hmsg_a : note_messages P p a =
                   [mkMessage "note_on" (Z.of_nat p) (Z.quot (Zsum l) (Z.of_nat (b - a))) 0]).
  { unfold note_messages. rewrite Hrise, Hrun. reflexivity. }
  assert (Hmsg_b : note_messages P p b = [mkMessage "note_on" (Z.of_nat p) 0 0]).
  { unfold note_messages, rising, falling. rewrite Hoff. cbn [andb negb].
    destruct b as [| b']; [lia |]. cbn [before]. rewrite Hall by lia. reflexivity. }
  destruct (@append_at_ok E a
              (mkMessage "note_on" (Z.of_nat p) (Z.quot (Zsum l) (Z.of_nat (b - a))) 0))
    as [E1 [Happ1 [HE1 Hn1]]]; [lia |].
  rewrite Happ1. cbn [bind].
  destruct (Nat.ltb_spec b T) as [Hlt | Hge].
  - rewrite mido_Message_ok by lia. cbn [bind].
    destruct (@append_at_ok E1 b (mkMessage "note_on" (Z.of_nat p) 0 0))
      as [E2 [Happ2 [HE2 Hn2]]]; [lia |].
    exists E2. split; [exact Happ2 |]. split; [lia |].
    intros t. rewrite Hn2, Hn1, <- app_assoc. f_equal.
    destruct (Nat.ltb_spec b T); [| lia].
    destruct (Nat.eqb_spec t a) as [Hta | Hta]; destruct (Nat.eqb_spec t b) as [Htb | Htb];
      cbn [orb andb app]; try lia.
    + rewrite Hta, Hmsg_a. reflexivity.
    + rewrite Htb, Hmsg_b. reflexivity.
    + reflexivity.
  - exists E1. split; [reflexivity |]. split; [lia |].
    intros t. rewrite Hn1. f_equal. rewrite andb_false_r, orb_false_r.
    destruct (Nat.eqb_spec t a) as [-> | Hta]; [rewrite Hmsg_a |]; reflexivity.
Qed.

(** One pitch: every bucket receives what the pitch contributes to it. *)
Lemma pitch_events_ok (p : nat) (E : list (list Message)) :
  p < N -> length E = T ->
  exists E',
    pitch_events clipped diff T 0 E p = Ok E' /\
    length E' = T /\
    forall t, nth t E' [] =
              nth t E [] ++ (if (t <? T) then note_messages P p t else []).
Proof.
  intros Hp HE. unfold pitch_events, column. rewrite Z.add_0_l, diff_tab.
  rewrite shape0_tab2, shape1_tab2, axis_index_nat by exact Hp. cbn [bind].
  assert (Hcol :
    map (fun i => get2 0%Z
                    (tab2 (T + 1) N
                       (fun t q => (Z.b2z (on_at P q t) - Z.b2z (before (on_at P q) t))%Z))
                    i p) (seq 0 (T + 1)) =
    map (fun t => (Z.b2z (on_at P p t) - Z.b2z (before (on_at P p) t))%Z)
        (seq 0 (T + 1))).
  { apply map_ext_in. intros i Hi. apply in_seq in Hi.
    rewrite get2_tab2 by lia. reflexivity. }
  rewrite Hcol, !map_map, !nonzero_map_seq.
  assert (Hons :
    filter (fun t => (0 <? Z.b2z (on_at P p t) - Z.b2z (before (on_at P p) t))%Z)
           (seq 0 (T + 1)) = filter (rising (on_at P p)) (seq 0 (T + 1))).
  { apply filter_ext. intros t. unfold rising.
    destruct (on_at P p t); destruct (before (on_at P p) t); reflexivity. }
  assert (Hoffs :
    filter (fun t => (Z.b2z (on_at P p t) - Z.b2z (before (on_at P p) t) <? 0)%Z)
           (seq 0 (T + 1)) = filter (falling (on_at P p)) (seq 0 (T + 1))).
  { apply filter_ext. intros t. unfold falling.
    destruct (on_at P p t); destruct (before (on_at P p) t); reflexivity. }
  rewrite Hons, Hoffs.
  destruct (@scan_edges (on_at P p) T (note_messages P p)
              (note_pair_events clipped T p (Z.of_nat p))
              (fun t => @on_at_end p t) (@note_messages_quiet p)
              (fun E a b HE Hab HbT => @note_pair_events_ok p E a b Hp HE Hab HbT)
              (T + 1) 0 eq_refl) as [HA _].
  destruct (HA eq_refl) as [Hlen Hloop].
  pose proof (@enumerate_pairs clipped T p (Z.of_nat p)
                (filter (rising (on_at P p)) (seq 0 (T + 1))) [] []
                (filter (falling (on_at P p)) (seq 0 (T + 1))) E eq_refl Hlen)
    as Hpairs.
  cbn [app length] in Hpairs. rewrite Hpairs.
  destruct (Hloop E HE) as [E' [Hfor [HE' Hnth]]].
  exists E'. split; [exact Hfor |]. split; [exact HE' |]. exact Hnth.
Qed.

(** All pitches from [s] on, in increasing order. *)
Lemma pitch_loop_ok (m : nat) :
  forall s E, s + m <= N -> length E = T ->
    exists E',
      for_each (pitch_events clipped diff T 0) (seq s m) E = Ok E' /\
      length E' = T /\
      forall t, nth t E' [] =
                nth t E [] ++
                (if (t <? T) then flat_map (fun p => note_messages P p t) (seq s m)
                 else []).
Proof.
  induction m as [| m IH]; intros s E Hs HE.
  - exists E. split; [reflexivity |]. split; [exact HE |].
    intros t. cbn [seq flat_map]. destruct (t <? T); rewrite app_nil_r; reflexivity.
  - cbn [seq for_each].
    destruct (@pitch_events_ok s E) as [E1 [Hp [HE1 Hn1]]]; [lia | exact HE |].
    rewrite Hp. cbn [bind].
    destruct (IH (S s) E1) as [E' [Hloop [HE' Hn']]]; [lia | exact HE1 |].
    exists E'. split; [exact Hloop |]. split; [exact HE' |].
    intros t. rewrite Hn', Hn1, <- app_assoc. f_equal.
    cbn [flat_map]. destruct (t <? T); reflexivity.
Qed.

(** With [min_pitch = 0], [pianoroll_2_events] returns one bucket per tick
    holding, in increasing pitch order, the note-on of every run that
    starts at the tick and the note-off of every run that ends there. *)
Lemma pianoroll_2_events_ok (max_pitch : Z) :
  Z.of_nat N = (max_pitch + 1)%Z ->
  pianoroll_2_events P 0 max_pitch = Ok (expected_events P).
Proof.
  intros Hshape. unfold pianoroll_2_events.
  replace (max_pitch - 0 + 1)%Z with (max_pitch + 1)%Z by lia.
  rewrite Hshape, Z.eqb_refl. cbn [assert bind].
  destruct (@pitch_loop_ok N 0 (repeat [] T)) as [E' [Hloop [HE' Hnth]]];
    [lia | apply repeat_length |].
  rewrite Hloop. f_equal.
  apply (nth_ext _ _ [] []).
  - unfold expected_events. rewrite length_map, length_seq. exact HE'.
  - intros t Ht. rewrite HE' in Ht. rewrite Hnth.
    rewrite nth_repeat. cbn [app].
    destruct (Nat.ltb_spec t T); [| lia].
    unfold expected_events.
    rewrite (nth_map_seq (fun t => flat_map (fun p => note_messages P p t) (seq 0 N))
               0 [] Ht).
    reflexivity.
Qed.

End Events.

(** With a positive [min_pitch] the edge detection reads column
    [min_pitch + p] of an array that has only [num_pitches] columns, and the
    loop over pitches raises. *)
Lemma pianoroll_2_events_min_pitch_raises (P : ndarray2 Q) (min_pitch max_pitch : Z) :
  (0 < min_pitch)%Z -> 0 < shape0 P ->
  exists e, pianoroll_2_events P min_pitch max_pitch = Raise e.
Proof.
  intros Hmin HN. unfold pianoroll_2_events.
  destruct (assert _) as [[] | e]; [| exists e; reflexivity]. cbn [bind].
  destruct (shape0 P) as [| n] eqn:HeqN; [lia |].
  rewrite seq_S. apply for_each_raises.
  intros E. exists IndexError. unfold pitch_events, column.
  rewrite axis_index_high; [reflexivity |].
  unfold diff_axis0, pad_axis0, transpose, map2d, tab2; cbn [shape0 shape1].
  rewrite HeqN. cbn [Nat.add]. lia.
Qed.

(** C2: on [silent_tick], whose pitch axis has the length
    [max_pitch - min_pitch + 1] for [min_pitch = max_pitch = 1],
    [pianoroll_2_events] raises [IndexError]: it indexes column
    [min_pitch + p] of the first difference. *)
Theorem pianoroll_2_events_indexes_by_pitch :
  Z.of_nat (shape0 silent_tick) = (1 - 1 + 1)%Z /\
  pianoroll_2_events silent_tick 1 1 = Raise IndexError.
Proof.
  split; [reflexivity | vm_compute; reflexivity].
Qed.

Lemma flat_map_nil (A B : Type) (f : A -> list B) (l : list A) :
  (forall x, In x l -> f x = []) -> flat_map f l = [].
Proof.
  induction l as [| x l IH]; intros H; cbn [flat_map]; [reflexivity |].
  rewrite (H x) by (left; reflexivity).
  rewrite IH by (intros y Hy; apply H; right; exact Hy). reflexivity.
Qed.

Lemma flat_map_single (B : Type) (f : nat -> list B) (n p : nat) :
  p < n -> (forall q, q < n -> q <> p -> f q = []) ->
  flat_map f (seq 0 n) = f p.
Proof.
  intros Hp Hf.
  replace n with (p + (1 + (n - p - 1))) by lia.
  rewrite !seq_app, !flat_map_app. cbn [seq flat_map Nat.add].
  rewrite !flat_map_nil.
  - cbn [app]. rewrite !app_nil_r. reflexivity.
  - intros q Hq. apply in_seq in Hq. apply Hf; lia.
  - intros q Hq. apply in_seq in Hq. apply Hf; lia.
Qed.

Lemma run_length_on (on : nat -> bool) (fuel : nat) :
  forall t i, i < run_length on fuel t -> on (t + i) = true.
Proof.
  induction fuel as [| fuel IH]; intros t i Hi; cbn [run_length] in Hi; [lia |].
  destruct (on t) eqn:Hon; [| lia].
  destruct i as [| i]; [rewrite Nat.add_0_r; exact Hon |].
  replace (t + S i) with (S t + i) by lia. apply IH. lia.
Qed.

(** A note-on carries a velocity of at least 1: it cannot be mistaken for
    a note-off. *)
Lemma run_velocity_range (P : ndarray2 Q) (p t : nat) :
  valid_pianoroll P -> p < shape0 P -> on_at P p t = true ->
  (1 <= run_velocity P p t <= 127)%Z.
Proof.
  intros Hvalid Hp Hon. unfold run_velocity.
  set (n := run_length (on_at P p) (shape1 P - t) t).
  assert (Ht : t < shape1 P).
  { unfold on_at in Hon. apply andb_prop in Hon. destruct Hon as [Hlt _].
    apply Nat.ltb_lt in Hlt. exact Hlt. }
  assert (Hn : 0 < n).
  { unfold n. destruct (shape1 P - t) as [| fuel] eqn:Hfuel; [lia |].
    cbn [run_length]. rewrite Hon. lia. }
  assert (Hentries : forall x, In x (map (clipped_at P p) (seq t n)) ->
                               (1 <= x <= 127)%Z).
  { intros x Hx. apply in_map_iff in Hx. destruct Hx as [i [<- Hi]].
    apply in_seq in Hi.
    assert (Honi : on_at P p i = true).
    { replace i with (t + (i - t)) by lia. apply (run_length_on _ (shape1 P - t)).
      fold n. lia. }
    unfold on_at in Honi. apply andb_prop in Honi. destruct Honi as [Hlt Hnz].
    apply Nat.ltb_lt in Hlt. apply negb_true_iff in Hnz. apply Z.eqb_neq in Hnz.
    pose proof (Hvalid p i Hp Hlt). lia. }
  assert (Hlen : length (map (clipped_at P p) (seq t n)) = n)
    by (rewrite length_map, length_seq; reflexivity).
  pose proof (@Zsum_bounds (map (clipped_at P p) (seq t n)) 127) as Hup.
  pose proof (@Zsum_lower (map (clipped_at P p) (seq t n)) 1) as Hlow.
  rewrite Hlen in Hup, Hlow.
  assert (Hsum : (Z.of_nat n <= Zsum (map (clipped_at P p) (seq t n)) <= 127 * Z.of_nat n)%Z).
  { split.
    - replace (Z.of_nat n) with (1 * Z.of_nat n)%Z at 1 by lia.
      apply Hlow. intros x Hx. apply Hentries. exact Hx.
    - apply Hup. intros x Hx. pose proof (Hentries x Hx). lia. }
  rewrite Z.quot_div_nonneg by lia. split.
  - apply Z.div_le_lower_bound; lia.
  - apply Z.div_le_upper_bound; lia.
Qed.

Lemma expected_events_nth (P : ndarray2 Q) (t : nat) :
  nth t (expected_events P) [] =
  if (t <? shape1 P)
  then flat_map (fun p => note_messages P p t) (seq 0 (shape0 P))
  else [].
Proof.
  unfold expected_events. destruct (Nat.ltb_spec t (shape1 P)) as [Ht | Ht].
  - rewrite (nth_map_seq
               (fun t => flat_map (fun p => note_messages P p t) (seq 0 (shape0 P)))
               0 [] Ht). reflexivity.
  - apply nth_overflow. rewrite length_map, length_seq. exact Ht.
Qed.

(** A note-off found in a bucket sits at a tick inside the pianoroll where
    its pitch stops sounding. *)
Lemma expected_events_off (P : ndarray2 Q) (t q : nat) :
  valid_pianoroll P ->
  In (off_msg (Z.of_nat q)) (nth t (expected_events P) []) ->
  t < shape1 P /\ q < shape0 P /\ falling (on_at P q) t = true.
Proof.
  intros Hvalid Hin. rewrite expected_events_nth in Hin.
  destruct (Nat.ltb_spec t (shape1 P)) as [Ht | Ht]; [| destruct Hin].
  apply in_flat_map in Hin. destruct Hin as [r [Hr Hin]]. apply in_seq in Hr.
  unfold note_messages in Hin.
  destruct (rising (on_at P r) t) eqn:Hrise.
  - destruct Hin as [Heq | []]. unfold on_msg, off_msg in Heq.
    injection Heq as _ Hvel.
    unfold rising in Hrise. apply andb_prop in Hrise. destruct Hrise as [Hon _].
    pose proof (@run_velocity_range P r t Hvalid ltac:(lia) Hon). lia.
  - destruct (falling (on_at P r) t) eqn:Hfall; [| destruct Hin].
    destruct Hin as [Heq | []]. unfold off_msg in Heq. injection Heq as Hq.
    apply Nat2Z.inj in Hq. subst r. split; [exact Ht |]. split; [lia | exact Hfall].
Qed.

(** C1, as the code has it: for a pianoroll given pitch-major (shape
    [(num_pitches, num_ticks)], as [pianoroll_2_events] asserts) with
    [min_pitch = 0] and [max_pitch = num_pitches - 1 <= 127], whose only
    nonzero integer-truncated values are a run of constant value [v],
    [1 <= v <= 127], on pitch [p] from tick [a] to tick [b] (exclusive),
    the result has one bucket per tick; bucket [a] holds exactly the
    note-on of pitch [p] with velocity [v]; bucket [b], when
    [b < num_ticks], holds exactly the note-off of pitch [p] (a [note_on]
    message of velocity 0); every other bucket is empty.  In particular
    the pianoroll of shape [(1, 8)] with values [0,0,5,5,5,0,0,0] and
    [min_pitch = max_pitch = 0] gives the note-on of pitch 0 with velocity
    5 in bucket 2 and its note-off in bucket 5. *)
Theorem single_run_events :
  (forall (P : ndarray2 Q) (max_pitch : Z) (p a b : nat) (v : Z),
     Z.of_nat (shape0 P) = (max_pitch + 1)%Z -> (max_pitch <= 127)%Z ->
     p < shape0 P -> a < b -> b <= shape1 P -> (1 <= v <= 127)%Z ->
     (forall q t, q < shape0 P -> t < shape1 P ->
        clipped_at P q t = if (q =? p) && (a <=? t) && (t <? b) then v else 0%Z) ->
     exists events,
       pianoroll_2_events P 0 max_pitch = Ok events /\
       length events = shape1 P /\
       forall t, t < shape1 P ->
         nth t events [] =
         if t =? a then [on_msg (Z.of_nat p) v]
         else if t =? b then [off_msg (Z.of_nat p)] else []) /\
  pianoroll_2_events run_example 0 0 =
  Ok [[]; []; [on_msg 0 5]; []; []; [off_msg 0]; []; []].
Proof.
  split; [| vm_compute; reflexivity].
  intros P max_pitch p a b v Hshape Hmax Hp Hab Hb Hv Hvals.
  assert (Hvalid : valid_pianoroll P).
  { intros q t Hq Ht. rewrite Hvals by assumption.
    destruct ((q =? p) && (a <=? t) && (t <? b)); lia. }
  assert (Hwidth : shape0 P <= 128) by lia.
  rewrite (pianoroll_2_events_ok Hvalid Hwidth _ Hshape).
  exists (expected_events P). split; [reflexivity |].
  split; [unfold expected_events; rewrite length_map, length_seq; reflexivity |].
  intros t Ht. rewrite expected_events_nth.
  destruct (Nat.ltb_spec t (shape1 P)); [| lia].
  assert (Hother : forall q t', q < shape0 P -> q <> p -> on_at P q t' = false).
  { intros q t' Hq Hqp. unfold on_at.
    destruct (Nat.ltb_spec t' (shape1 P)); [| reflexivity].
    rewrite Hvals by assumption.
    destruct (Nat.eqb_spec q p); [contradiction | reflexivity]. }
  rewrite (@flat_map_single _ (fun q => note_messages P q t) (shape0 P) p Hp).
  2:{ intros q Hq Hqp. apply note_messages_quiet.
      - unfold rising. rewrite Hother by assumption. reflexivity.
      - unfold falling. destruct t as [| t']; cbn [before];
          [apply andb_false_r | rewrite (Hother q t') by assumption; apply andb_false_r]. }
  assert (Hon : forall t', on_at P p t' = (a <=? t') && (t' <? b)).
  { intros t'. unfold on_at.
    destruct (Nat.ltb_spec t' (shape1 P)) as [Hlt | Hge].
    - rewrite Hvals by assumption. rewrite Nat.eqb_refl. cbn [andb].
      destruct ((a <=? t') && (t' <? b)); [| reflexivity].
      destruct (Z.eqb_spec v 0); [lia | reflexivity].
    - destruct (Nat.ltb_spec t' b); [lia |]. rewrite andb_false_r. reflexivity. }
  assert (Hbef : forall t', before (on_at P p) t' = (a <? t') && (t' <=? b)).
  { intros [| t']; cbn [before]; [reflexivity | rewrite Hon; reflexivity]. }
  assert (Hvel : run_velocity P p a = v).
  { unfold run_velocity.
    rewrite (@run_length_exact (on_at P p) (b - a) (shape1 P - a) a).
    - rewrite (@Zsum_const v).
      + rewrite length_map, length_seq. apply Z.quot_mul. lia.
      + intros x Hx. apply in_map_iff in Hx. destruct Hx as [i [<- Hi]].
        apply in_seq in Hi. rewrite Hvals by lia. rewrite Nat.eqb_refl.
        destruct (Nat.leb_spec a i); [| lia]. destruct (Nat.ltb_spec i b); [| lia].
        reflexivity.
    - lia.
    - intros i Hi. rewrite Hon.
      destruct (Nat.leb_spec a i); [| lia]. destruct (Nat.ltb_spec i b); [| lia].
      reflexivity.
    - intros _. rewrite Hon. replace (a + (b - a)) with b by lia.
      destruct (Nat.ltb_spec b b); [lia |]. apply andb_false_r. }
  unfold note_messages, rising, falling. rewrite Hon, Hbef.
  destruct (Nat.eqb_spec t a) as [Hta | Hta]; destruct (Nat.eqb_spec t b) as [Htb | Htb];
    destruct (Nat.leb_spec a t); destruct (Nat.ltb_spec t b);
    destruct (Nat.ltb_spec a t); destruct (Nat.leb_spec t b);
    cbn [andb negb]; try lia; try reflexivity.
  rewrite Hta, Hvel. reflexivity.
Qed.

Lemma single_run_events_witness :
  exists events,
    pianoroll_2_events run_example 0 0 = Ok events /\
    nth 2 events [] = [on_msg 0 5] /\ nth 5 events [] = [off_msg 0] /\
    nth 6 events [] = [].
Proof.
  destruct (proj1 single_run_events run_example 0%Z 0 2 5 5%Z)
    as [events [Hret [_ Hnth]]].
  - reflexivity.
  - lia.
  - simpl. lia.
  - lia.
  - simpl. lia.
  - lia.
  - intros q t Hq Ht. simpl in Hq, Ht.
    destruct q as [| q]; [| lia].
    do 8 (destruct t as [| t]; [reflexivity |]). lia.
  - exists events. split; [exact Hret |].
    split; [apply (Hnth 2); simpl; lia |].
    split; [apply (Hnth 5); simpl; lia | apply (Hnth 6); simpl; lia].
Defined.

(** C1, as written, fails: the pianoroll of shape [(8, 1)] with
    [min_pitch = max_pitch = 60] fails the shape assertion, the same values
    laid out pitch-major raise [IndexError] at column 60, a run of value
    200 is refused by the MIDI message constructor, and a run of value 1/2
    produces no event at all. *)
Lemma single_run_claim_fails :
  pianoroll_2_events run_example_tick_major 60 60 = Raise AssertionError /\
  pianoroll_2_events run_example 60 60 = Raise IndexError /\
  pianoroll_2_events loud_example 0 0 = Raise ValueError /\
  pianoroll_2_events faint_example 0 0 = Ok [[]; []].
Proof.
  repeat split; vm_compute; reflexivity.
Qed.

(** C7, as the code has it: with [min_pitch = 0], on a pitch-major
    pianoroll of [max_pitch + 1 <= 128] pitches whose integer-truncated
    values lie in [0..127], a note of pitch [p] that starts at tick [a] and
    still sounds at the final tick gives a note-on, of a velocity in
    [1..127], in bucket [a] and no note-off in any bucket from [a] on;
    every note-off that is emitted sits in a bucket [t < num_ticks] at
    which its pitch stops sounding. *)
Theorem held_note_has_no_note_off (P : ndarray2 Q) (max_pitch : Z) (p a : nat) :
  (max_pitch <= 127)%Z -> Z.of_nat (shape0 P) = (max_pitch + 1)%Z ->
  valid_pianoroll P -> p < shape0 P -> a < shape1 P ->
  before (on_at P p) a = false ->
  (forall t, a <= t < shape1 P -> on_at P p t = true) ->
  exists events,
    pianoroll_2_events P 0 max_pitch = Ok events /\
    length events = shape1 P /\
    (exists v, (1 <= v <= 127)%Z /\
               In (on_msg (Z.of_nat p) v) (nth a events [])) /\
    (forall t, a <= t -> ~ In (off_msg (Z.of_nat p)) (nth t events [])) /\
    (forall t q, In (off_msg (Z.of_nat q)) (nth t events []) ->
                 t < shape1 P /\ falling (on_at P q) t = true).
Proof.
  intros Hmax Hshape Hvalid Hp Ha Hbef Hheld.
  exists (expected_events P).
  split; [apply pianoroll_2_events_ok; [exact Hvalid | lia | exact Hshape] |].
  assert (Hon : on_at P p a = true) by (apply Hheld; lia).
  split; [unfold expected_events; rewrite length_map, length_seq; reflexivity |].
  split; [| split].
  - exists (run_velocity P p a).
    split; [apply run_velocity_range; assumption |].
    rewrite expected_events_nth. destruct (Nat.ltb_spec a (shape1 P)); [| lia].
    apply in_flat_map. exists p. split; [apply in_seq; lia |].
    unfold note_messages, rising. rewrite Hon, Hbef. left. reflexivity.
  - intros t Ht Hin.
    apply expected_events_off in Hin; [| exact Hvalid].
    destruct Hin as [HtT [_ Hfall]].
    unfold falling in Hfall. rewrite Hheld in Hfall by lia. discriminate.
  - intros t q Hin.
    apply expected_events_off in Hin; [| exact Hvalid].
    destruct Hin as [HtT [_ Hfall]]. split; assumption.
Qed.

Lemma held_note_has_no_note_off_witness :
  exists events,
    pianoroll_2_events held_example 0 0 = Ok events /\
    length events = 4 /\
    (exists v, In (on_msg 0 v) (nth 1 events [])) /\
    ~ In (off_msg 0) (nth 3 events []).
Proof.
  assert (Hvalid : valid_pianoroll held_example).
  { intros q t Hq Ht. simpl in Hq, Ht.
    destruct q as [| q]; [| lia].
    do 4 (destruct t as [| t]; [vm_compute; split; discriminate |]). lia. }
  assert (Hheld : forall t, 1 <= t < shape1 held_example ->
                            on_at held_example 0 t = true).
  { intros t Ht. simpl in Ht.
    destruct t as [| t]; [lia |].
    do 3 (destruct t as [| t]; [reflexivity |]). lia. }
  destruct (@held_note_has_no_note_off held_example 0 0 1)
    as [events [Hret [Hlen [[v [_ Hin]] [Hnone _]]]]].
  - lia.
  - reflexivity.
  - exact Hvalid.
  - simpl. lia.
  - simpl. lia.
  - reflexivity.
  - exact Hheld.
  - exists events. split; [exact Hret |].
    split; [exact Hlen |]. split; [exists v; exact Hin |].
    apply Hnone. lia.
Defined.

(** C7, as written, fails: the note of [held_example] sounds from tick 1
    to the final tick 3, and the note of [loud_example] over both of its
    ticks; yet the first, called with [min_pitch = max_pitch = 1] (the
    shape assertion holds), raises [IndexError] at column 1, and the second,
    of value 200, is refused by the MIDI message constructor: neither call
    produces a note-on. *)
Lemma held_note_claim_fails :
  (Z.of_nat (shape0 held_example) = 1 - 1 + 1)%Z /\
  before (on_at held_example 0) 1 = false /\
  on_at held_example 0 1 = true /\
  on_at held_example 0 2 = true /\
  on_at held_example 0 3 = true /\
  shape1 held_example = 4 /\
  pianoroll_2_events held_example 1 1 = Raise IndexError /\
  on_at loud_example 0 0 = true /\
  on_at loud_example 0 1 = true /\
  shape1 loud_example = 2 /\
  pianoroll_2_events loud_example 0 0 = Raise ValueError.
Proof.
  repeat split; vm_compute; reflexivity.
Qed.

(** * Further properties of the module *)

(** ** Slices *)

Lemma slice_cols_ok (a : ndarray2 Q) (lo hi : Z) :
  (0 <= lo <= hi)%Z -> (hi <= Z.of_nat (shape1 a))%Z ->
  slice_cols a lo hi =
  tab2 (shape0 a) (Z.to_nat (hi - lo)) (fun i j => get2 0%Q a i (Z.to_nat lo + j)).
Proof.
  intros Hlo Hhi. unfold slice_cols.
  rewrite !slice_index_nonneg by lia.
  replace (Z.to_nat hi - Z.to_nat lo) with (Z.to_nat (hi - lo)) by lia.
  reflexivity.
Qed.

(** ** [get_transposed_pianoroll] *)

Lemma zeros_reshaped_ok (r c : Z) :
  (0 <= r)%Z -> (0 <= c)%Z ->
  zeros_reshaped (c * r) r c = Ok (tab2 (Z.to_nat r) (Z.to_nat c) (fun _ _ => 0%Q)).
Proof.
  intros Hr Hc. unfold zeros_reshaped.
  destruct (Z.ltb_spec (c * r) 0); [nia |].
  destruct (Z.ltb_spec r 0); [lia |]. destruct (Z.ltb_spec c 0); [lia |].
  rewrite (Z.mul_comm r c), Z.eqb_refl. reflexivity.
Qed.

(** The entry that a shift by [n] pitches brings to column [j]. *)
Lemma get_transposed_pianoroll_ok (P : ndarray2 Q) (n : Z) :
  (Z.abs n <= Z.of_nat (shape1 P))%Z ->
  exists out,
    get_transposed_pianoroll P n = Ok out /\
    shape0 out = shape0 P /\ shape1 out = shape1 P /\
    forall t j, t < shape0 P -> j < shape1 P ->
      get2 0%Q out t j =
      if ((0 <=? Z.of_nat j - n) && (Z.of_nat j - n <? Z.of_nat (shape1 P)))%Z
      then get2 0%Q P t (Z.to_nat (Z.of_nat j - n))
      else 0%Q.
Proof.
  intros Habs. unfold get_transposed_pianoroll.
  destruct (Z.leb_spec (Z.abs n) (Z.of_nat (shape1 P))); [| lia].
  cbn [assert bind].
  destruct (Z.ltb_spec 0 n) as [Hpos | Hnpos].
  - rewrite zeros_reshaped_ok by lia. cbn [bind].
    rewrite slice_cols_ok by lia.
    rewrite hstack2_ok by (rewrite !shape0_tab2; lia). cbn [bind].
    rewrite !shape0_tab2, !shape1_tab2, Nat2Z.id, Nat.eqb_refl.
    replace (Z.to_nat n + Z.to_nat (Z.of_nat (shape1 P) - n - 0)) with (shape1 P) by lia.
    rewrite Nat.eqb_refl. cbn [andb assert bind].
    eexists. split; [reflexivity |]. split; [reflexivity |]. split; [reflexivity |].
    intros t j Ht Hj. rewrite get2_tab2 by lia.
    destruct (Nat.ltb_spec j (Z.to_nat n)) as [Hjn | Hjn].
    + rewrite get2_tab2 by lia.
      destruct (Z.leb_spec 0 (Z.of_nat j - n)); [lia | reflexivity].
    + rewrite get2_tab2 by lia.
      destruct (Z.leb_spec 0 (Z.of_nat j - n)); [| lia].
      destruct (Z.ltb_spec (Z.of_nat j - n) (Z.of_nat (shape1 P))); [| lia].
      cbn [andb]. f_equal. lia.
  - destruct (Z.ltb_spec n 0) as [Hneg | Hnneg].
    + rewrite zeros_reshaped_ok by lia. cbn [bind].
      rewrite slice_cols_ok by lia.
      rewrite hstack2_ok by (rewrite !shape0_tab2; lia). cbn [bind].
      rewrite !shape0_tab2, !shape1_tab2, Nat.eqb_refl.
      replace (Z.to_nat (Z.of_nat (shape1 P) - Z.abs n) + Z.to_nat (Z.abs n))
        with (shape1 P) by lia.
      rewrite Nat.eqb_refl. cbn [andb assert bind].
      eexists. split; [reflexivity |]. split; [reflexivity |]. split; [reflexivity |].
      intros t j Ht Hj. rewrite get2_tab2 by lia.
      destruct (Z.leb_spec 0 (Z.of_nat j - n)); [| lia]. cbn [andb].
      destruct (Nat.ltb_spec j (Z.to_nat (Z.of_nat (shape1 P) - Z.abs n))) as [Hjn | Hjn];
        destruct (Z.ltb_spec (Z.of_nat j - n) (Z.of_nat (shape1 P))); try lia.
      * rewrite get2_tab2 by lia. f_equal. lia.
      * rewrite get2_tab2 by lia. reflexivity.
    + assert (n = 0%Z) by lia. subst n. cbn [bind].
      rewrite !Nat.eqb_refl. cbn [andb assert bind].
      exists P. split; [reflexivity |]. split; [reflexivity |]. split; [reflexivity |].
      intros t j Ht Hj. rewrite Z.sub_0_r.
      destruct (Z.leb_spec 0 (Z.of_nat j)); [| lia].
      destruct (Z.ltb_spec (Z.of_nat j) (Z.of_nat (shape1 P))); [| lia].
      cbn [andb]. rewrite Nat2Z.id. reflexivity.
Qed.

(** X1: [get_transposed_pianoroll] moves every pitch column up by
    [num_semitones] (down when negative), keeps the shape, and fills the
    vacated columns with zero; a shift larger than the number of pitches
    fails the assertion. *)
Theorem get_transposed_pianoroll_shifts (P : ndarray2 Q) (n : Z) :
  ((Z.abs n <= Z.of_nat (shape1 P))%Z ->
   exists out,
     get_transposed_pianoroll P n = Ok out /\
     shape0 out = shape0 P /\ shape1 out = shape1 P /\
     forall t j, t < shape0 P -> j < shape1 P ->
       get2 0%Q out t j =
       if ((0 <=? Z.of_nat j - n) && (Z.of_nat j - n <? Z.of_nat (shape1 P)))%Z
       then get2 0%Q P t (Z.to_nat (Z.of_nat j - n))
       else 0%Q) /\
  ((Z.of_nat (shape1 P) < Z.abs n)%Z ->
   get_transposed_pianoroll P n = Raise AssertionError).
Proof.
  split.
  - apply get_transposed_pianoroll_ok.
  - intros Hbig. unfold get_transposed_pianoroll.
    destruct (Z.leb_spec (Z.abs n) (Z.of_nat (shape1 P))); [lia | reflexivity].
Qed.

Lemma get_transposed_pianoroll_shifts_witness :
  (exists out,
     get_transposed_pianoroll three_pitches 1 = Ok out /\
     get2 0%Q out 0 0 = 0%Q /\ get2 0%Q out 0 1 = 1%Q /\ get2 0%Q out 0 2 = 2%Q) /\
  get_transposed_pianoroll three_pitches (-4) = Raise AssertionError.
Proof.
  destruct (get_transposed_pianoroll_shifts three_pitches 1) as [Hok _].
  destruct (get_transposed_pianoroll_shifts three_pitches (-4)) as [_ Hbad].
  split.
  - destruct Hok as [out [Hret [_ [_ Hget]]]]; [simpl; lia |].
    exists out. split; [exact Hret |].
    split; [| split]; rewrite Hget by (simpl; lia); reflexivity.
  - apply Hbad. simpl. lia.
Defined.

(** X2: transposing up by [n] and back down by [n] does not restore the
    pianoroll: the [n] highest pitch columns come back as zero, the others
    are unchanged. *)
Theorem transpose_up_then_down (P : ndarray2 Q) (n : Z) :
  (0 <= n <= Z.of_nat (shape1 P))%Z ->
  exists up out,
    get_transposed_pianoroll P n = Ok up /\
    get_transposed_pianoroll up (- n) = Ok out /\
    shape0 out = shape0 P /\ shape1 out = shape1 P /\
    forall t j, t < shape0 P -> j < shape1 P ->
      get2 0%Q out t j =
      if (Z.of_nat j <? Z.of_nat (shape1 P) - n)%Z then get2 0%Q P t j else 0%Q.
Proof.
  intros Hn.
  destruct (@get_transposed_pianoroll_ok P n) as [up [Hup [Hu0 [Hu1 Hupget]]]]; [lia |].
  destruct (@get_transposed_pianoroll_ok up (- n)) as [out [Hout [Ho0 [Ho1 Hoget]]]];
    [rewrite Hu1; lia |].
  exists up, out. split; [exact Hup |]. split; [exact Hout |].
  split; [congruence |]. split; [congruence |].
  intros t j Ht Hj. rewrite Hoget by congruence. rewrite Hu1.
  destruct (Z.leb_spec 0 (Z.of_nat j - - n)); [| lia]. cbn [andb].
  destruct (Z.ltb_spec (Z.of_nat j - - n) (Z.of_nat (shape1 P)));
    destruct (Z.ltb_spec (Z.of_nat j) (Z.of_nat (shape1 P) - n)); try lia;
    [| reflexivity].
  rewrite Hupget by lia.
  destruct (Z.leb_spec 0 (Z.of_nat (Z.to_nat (Z.of_nat j - - n)) - n)); [| lia].
  destruct (Z.ltb_spec (Z.of_nat (Z.to_nat (Z.of_nat j - - n)) - n)
                       (Z.of_nat (shape1 P))); [| lia].
  cbn [andb]. f_equal. lia.
Qed.

Lemma transpose_up_then_down_witness :
  exists up out,
    get_transposed_pianoroll three_pitches 1 = Ok up /\
    get_transposed_pianoroll up (-1) = Ok out /\
    get2 0%Q out 0 1 = 2%Q /\ get2 0%Q out 0 2 = 0%Q.
Proof.
  destruct (@transpose_up_then_down three_pitches 1)
    as [up [out [Hup [Hout [_ [_ Hget]]]]]]; [simpl; lia |].
  exists up, out. split; [exact Hup |]. split; [exact Hout |].
  split; rewrite Hget by (simpl; lia); reflexivity.
Defined.

(** ** [crop_pianoroll] *)

(** X3: on a pianoroll of 128 pitches and bounds
    [0 <= min_pitch <= max_pitch <= 127], [crop_pianoroll] returns the
    columns [min_pitch..max_pitch], in order, for every tick. *)
Theorem crop_pianoroll_window (P : ndarray2 Q) (min_pitch max_pitch : Z) :
  shape1 P = 128 -> (0 <= min_pitch <= max_pitch)%Z -> (max_pitch <= 127)%Z ->
  exists out,
    crop_pianoroll P min_pitch max_pitch = Ok out /\
    wf2 out /\ shape0 out = shape0 P /\
    Z.of_nat (shape1 out) = (max_pitch - min_pitch + 1)%Z /\
    forall t j, t < shape0 P -> j < shape1 out ->
      get2 0%Q out t j = get2 0%Q P t (Z.to_nat min_pitch + j).
Proof.
  intros Hw Hmin Hmax. unfold crop_pianoroll.
  rewrite Hw. cbn [Nat.eqb assert bind].
  rewrite slice_cols_ok by (rewrite ?Hw; lia).
  rewrite shape1_tab2.
  replace (Z.of_nat (Z.to_nat (max_pitch + 1 - min_pitch)))
    with (max_pitch - min_pitch + 1)%Z by lia.
  rewrite Z.eqb_refl. cbn [assert bind].
  eexists. split; [reflexivity |]. split; [apply wf2_tab2 |].
  split; [reflexivity |]. split; [rewrite shape1_tab2; lia |].
  intros t j Ht Hj. rewrite shape1_tab2 in Hj. rewrite get2_tab2 by lia. reflexivity.
Qed.

Lemma crop_pianoroll_window_witness :
  exists out,
    crop_pianoroll ramp128 60 62 = Ok out /\
    shape1 out = 3 /\ get2 0%Q out 0 0 = 60%Q /\ get2 0%Q out 0 2 = 62%Q.
Proof.
  destruct (@crop_pianoroll_window ramp128 60 62)
    as [out [Hret [_ [_ [Hw Hget]]]]]; [reflexivity | lia | lia |].
  assert (Hw3 : shape1 out = 3) by lia.
  exists out. split; [exact Hret |]. split; [exact Hw3 |].
  split; rewrite Hget by (rewrite ?Hw3; simpl; lia); reflexivity.
Defined.

(** X4: with [0 <= min_pitch <= max_pitch], [crop_pianoroll] fails one of
    its assertions as soon as the pianoroll does not have 128 pitches or
    [max_pitch] exceeds 127: the slice is clipped and too narrow. *)
Theorem crop_pianoroll_rejects (P : ndarray2 Q) (min_pitch max_pitch : Z) :
  (0 <= min_pitch <= max_pitch)%Z ->
  shape1 P <> 128 \/ (127 < max_pitch)%Z ->
  crop_pianoroll P min_pitch max_pitch = Raise AssertionError.
Proof.
  intros Hmin Hbad. unfold crop_pianoroll.
  destruct (Nat.eqb_spec (shape1 P) 128) as [Hw | Hw]; [| reflexivity].
  destruct Hbad as [Hbad | Hbad]; [contradiction |].
  cbn [assert bind]. unfold slice_cols. rewrite shape1_tab2, Hw.
  unfold slice_index.
  destruct (Z.ltb_spec min_pitch 0); [lia |].
  destruct (Z.ltb_spec (max_pitch + 1) 0); [lia |].
  destruct (Z.eqb_spec
              (Z.of_nat (Z.to_nat (Z.min (max_pitch + 1) (Z.of_nat 128)) -
                         Z.to_nat (Z.min min_pitch (Z.of_nat 128))))
              (max_pitch - min_pitch + 1)) as [Heq | Hne];
    [lia | reflexivity].
Qed.

Lemma crop_pianoroll_rejects_witness :
  crop_pianoroll ramp128 100 128 = Raise AssertionError.
Proof.
  apply crop_pianoroll_rejects; [lia | right; lia].
Defined.

(** X5: [pad_pianoroll] followed by [crop_pianoroll] with the same bounds
    is not the identity: the pianoroll comes back with its lowest pitch
    column dropped, the others moved down by one and a zero column on top. *)
Theorem pad_then_crop_drops_lowest (P : ndarray2 Q) (min_pitch max_pitch : Z) :
  (1 <= min_pitch <= max_pitch)%Z -> (max_pitch <= 127)%Z ->
  Z.of_nat (shape1 P) = (max_pitch - min_pitch + 1)%Z ->
  exists out,
    (padded <- pad_pianoroll P min_pitch max_pitch ;;
     crop_pianoroll padded min_pitch max_pitch) = Ok out /\
    shape0 out = shape0 P /\ shape1 out = shape1 P /\
    forall t j, t < shape0 P -> j < shape1 P ->
      get2 0%Q out t j = if (j + 1 <? shape1 P) then get2 0%Q P t (j + 1) else 0%Q.
Proof.
  intros Hmin Hmax Hshape.
  rewrite pad_pianoroll_ok by lia. cbn [bind].
  destruct (@crop_pianoroll_window
              (tab2 (shape0 P) 128
                 (fun i j =>
                    if (j <? Z.to_nat (min_pitch - 1) + shape1 P)
                    then (if (j <? Z.to_nat (min_pitch - 1)) then 0%Q
                          else get2 0%Q P i (j - Z.to_nat (min_pitch - 1)))
                    else 0%Q))
              min_pitch max_pitch)
    as [out [Hret [_ [H0 [H1 Hget]]]]]; [reflexivity | lia | lia |].
  rewrite shape0_tab2 in H0, Hget.
  exists out. split; [exact Hret |]. split; [exact H0 |]. split; [lia |].
  intros t j Ht Hj. rewrite Hget by lia. rewrite get2_tab2 by lia.
  destruct (Nat.ltb_spec (Z.to_nat min_pitch + j) (Z.to_nat (min_pitch - 1) + shape1 P));
    destruct (Nat.ltb_spec (j + 1) (shape1 P)); try lia; [| reflexivity].
  destruct (Nat.ltb_spec (Z.to_nat min_pitch + j) (Z.to_nat (min_pitch - 1))); [lia |].
  f_equal. lia.
Qed.

Lemma pad_then_crop_drops_lowest_witness :
  exists out,
    (padded <- pad_pianoroll three_pitches 60 62 ;;
     crop_pianoroll padded 60 62) = Ok out /\
    get2 0%Q out 0 0 = 2%Q /\ get2 0%Q out 0 1 = 3%Q /\ get2 0%Q out 0 2 = 0%Q.
Proof.
  destruct (@pad_then_crop_drops_lowest three_pitches 60 62)
    as [out [Hret [_ [_ Hget]]]]; [lia | lia | reflexivity |].
  exists out. split; [exact Hret |].
  split; [| split]; rewrite Hget by (simpl; lia); reflexivity.
Defined.

(** ** [chop_to_unit_multiple], again *)

(** X6: on a pianoroll of fewer than [2^53] ticks, chopping is idempotent:
    a pianoroll already cut to whole units is returned unchanged, with the
    same unit count. *)
Theorem chop_to_unit_multiple_idempotent (P : ndarray2 Q) (ticks_per_unit : Z) :
  (Z.of_nat (shape0 P) < 2 ^ 53)%Z -> (0 < ticks_per_unit)%Z ->
  exists M Pt,
    chop_to_unit_multiple P ticks_per_unit = Ok (M, Pt) /\
    chop_to_unit_multiple Pt ticks_per_unit = Ok (M, Pt).
Proof.
  intros Hsmall Hpos. do 2 eexists.
  split; [apply chop_to_unit_multiple_ok; assumption |].
  set (M := (Z.of_nat (shape0 P) / ticks_per_unit)%Z).
  assert (HM : (0 <= M)%Z) by (apply Z.div_pos; lia).
  assert (Hle : (M * ticks_per_unit <= Z.of_nat (shape0 P))%Z).
  { rewrite Z.mul_comm. apply Z.mul_div_le. exact Hpos. }
  rewrite chop_to_unit_multiple_ok;
    [| cbn [shape0]; rewrite Z2Nat.id by nia; lia | exact Hpos].
  cbn [shape0 shape1 rows].
  rewrite Z2Nat.id by nia. rewrite Z.div_mul by lia.
  rewrite firstn_firstn, Nat.min_id. reflexivity.
Qed.

Lemma chop_to_unit_multiple_idempotent_witness :
  exists Pt,
    chop_to_unit_multiple five_ticks 2 = Ok (2%Z, Pt) /\
    chop_to_unit_multiple Pt 2 = Ok (2%Z, Pt).
Proof.
  destruct (@chop_to_unit_multiple_idempotent five_ticks 2 eq_refl eq_refl)
    as [M [Pt [H1 H2]]].
  assert (HM : M = 2%Z).
  { vm_compute in H1. injection H1 as HM _. symmetry. exact HM. }
  subst M. exists Pt. split; assumption.
Defined.

(** ** [shuffle_left_right], again *)

Lemma mask_assign_twice (A : Type) (mask : list bool) (d s : list A) :
  mask_assign mask (mask_assign mask d s) (mask_assign mask s d) = d.
Proof.
  revert d s; induction mask as [| b mask IH]; intros d s.
  - destruct d; reflexivity.
  - destruct d as [| x d]; [reflexivity |].
    destruct s as [| y s]; [reflexivity |].
    cbn [mask_assign]. rewrite IH. destruct b; reflexivity.
Qed.

(** X7: exchanging twice with the same random vector gives back the left
    and right arrays. *)
Theorem shuffle_left_right_involutive (rng : nat -> bool) (L R : ndarray3) :
  dim0 L = dim0 R -> dim1 L = dim1 R -> dim2 L = dim2 R ->
  exists input_units comp_units,
    shuffle_left_right rng L R = Ok (input_units, comp_units) /\
    shuffle_left_right rng input_units comp_units = Ok (L, R).
Proof.
  intros H0 H1 H2. do 2 eexists.
  split; [apply shuffle_left_right_ok; assumption |].
  rewrite shuffle_left_right_ok by assumption.
  cbn [dim0 dim1 dim2 units]. rewrite !mask_assign_twice.
  destruct L, R. reflexivity.
Qed.

Lemma shuffle_left_right_involutive_witness :
  exists input_units comp_units,
    shuffle_left_right Nat.odd lefts rights = Ok (input_units, comp_units) /\
    shuffle_left_right Nat.odd input_units comp_units = Ok (lefts, rights).
Proof.
  apply shuffle_left_right_involutive; reflexivity.
Defined.

(** ** [create_units], again *)

Lemma chop_to_unit_multiple_negative (P : ndarray2 Q) (ticks_per_unit : Z) :
  (Z.of_nat (shape0 P) < 2 ^ 53)%Z -> (ticks_per_unit < 0)%Z ->
  exists M Pt, chop_to_unit_multiple P ticks_per_unit = Ok (M, Pt).
Proof.
  intros Hsmall Hneg.
  destruct (@py_truediv_int (Z.of_nat (shape0 P)) ticks_per_unit) as [q [Hdiv Ht]];
    [lia | lia |].
  unfold chop_to_unit_multiple. rewrite Hdiv. cbn [bind]. rewrite Ht.
  set (n := Z.of_nat (shape0 P)).
  assert (Hq : Z.quot n ticks_per_unit = (- (n / - ticks_per_unit))%Z).
  { replace ticks_per_unit with (- - ticks_per_unit)%Z at 1 by lia.
    rewrite Z.quot_opp_r by lia. rewrite Z.quot_div_nonneg by lia. reflexivity. }
  rewrite Hq.
  assert (Hd : (0 <= n / - ticks_per_unit)%Z) by (apply Z.div_pos; lia).
  assert (Hle : (- ticks_per_unit * (n / - ticks_per_unit) <= n)%Z)
    by (apply Z.mul_div_le; lia).
  assert (Hk : (0 <= - (n / - ticks_per_unit) * ticks_per_unit <= n)%Z) by nia.
  destruct (Z.leb_spec (- (n / - ticks_per_unit) * ticks_per_unit) n); [| lia].
  cbn [assert bind]. unfold slice_rows_to. fold n.
  rewrite slice_index_nonneg by (unfold n in Hk; lia).
  cbn [shape0 shape1]. rewrite Z2Nat.id by lia.
  rewrite Z.eqb_refl, Nat.eqb_refl. cbn [andb assert bind].
  do 2 eexists. reflexivity.
Qed.

(** X8: on a pianoroll of the declared width, [create_units] raises
    [ZeroDivisionError] when [ticks_per_unit] is 0 and, the song being of
    fewer than [2^53] ticks, [ValueError] (from the allocation of the
    output arrays) when it is negative. *)
Theorem create_units_nonpositive_unit (np_mean : list (list Q) -> option Q)
  (rng : nat -> bool) (P : ndarray2 Q) (N : nat)
  (ticks_per_unit partition_note min_pitch : Z) (filter_threshold : Q) :
  shape1 P = N ->
  (ticks_per_unit = 0%Z ->
   create_units np_mean rng P (Z.of_nat N) ticks_per_unit partition_note min_pitch
                filter_threshold = Raise ZeroDivisionError) /\
  ((Z.of_nat (shape0 P) < 2 ^ 53)%Z -> (ticks_per_unit < 0)%Z ->
   create_units np_mean rng P (Z.of_nat N) ticks_per_unit partition_note min_pitch
                filter_threshold = Raise ValueError).
Proof.
  intros HN. subst N. split.
  - intros ->. unfold create_units. rewrite Z.eqb_refl. reflexivity.
  - intros Hsmall Hneg. unfold create_units. rewrite Z.eqb_refl. cbn [assert bind].
    destruct (@chop_to_unit_multiple_negative P ticks_per_unit Hsmall Hneg)
      as [M [Pt Hchop]].
    rewrite Hchop. cbn [bind]. unfold zeros_check. cbn [existsb].
    destruct (Z.ltb_spec ticks_per_unit 0); [| lia].
    rewrite orb_true_r. reflexivity.
Qed.

Lemma create_units_nonpositive_unit_witness :
  create_units mean_of_exact_sum Nat.even five_ticks 2 0 1 0 0%Q =
  Raise ZeroDivisionError /\
  create_units mean_of_exact_sum Nat.even five_ticks 2 (-2) 1 0 0%Q =
  Raise ValueError.
Proof.
  destruct (@create_units_nonpositive_unit mean_of_exact_sum Nat.even five_ticks
              2 0 1 0 0%Q eq_refl) as [H0 _].
  destruct (@create_units_nonpositive_unit mean_of_exact_sum Nat.even five_ticks
              2 (-2) 1 0 0%Q eq_refl) as [_ Hneg].
  split; [apply H0; reflexivity | apply Hneg; [reflexivity | lia]].
Defined.






(** ** [pianoroll_2_events], again *)

(** X11: with [min_pitch = 0], on a pitch-major pianoroll of at most 128
    pitches whose integer-truncated values lie in [0..127],
    [pianoroll_2_events] is a run-length encoding: it returns one bucket
    per tick, and the bucket of tick [t] lists, by increasing pitch, a
    note-on with the truncated mean of the run for every pitch whose run
    starts at [t] and a note-off for every pitch whose run ended just
    before [t]. *)
Theorem pianoroll_2_events_encodes_runs (P : ndarray2 Q) (max_pitch : Z) :
  valid_pianoroll P ->
  Z.of_nat (shape0 P) = (max_pitch + 1)%Z -> (max_pitch <= 127)%Z ->
  exists events,
    pianoroll_2_events P 0 max_pitch = Ok events /\
    length events = shape1 P /\
    forall t, t < shape1 P ->
      nth t events [] = flat_map (fun p => note_messages P p t) (seq 0 (shape0 P)).
Proof.
  intros Hvalid Hshape Hmax. exists (expected_events P).
  split; [apply pianoroll_2_events_ok; [exact Hvalid | lia | exact Hshape] |].
  split; [unfold expected_events; rewrite length_map, length_seq; reflexivity |].
  intros t Ht. rewrite expected_events_nth.
  destruct (Nat.ltb_spec t (shape1 P)); [reflexivity | lia].
Qed.

Lemma held_example_valid : valid_pianoroll held_example.
Proof.
  intros q t Hq Ht. simpl in Hq, Ht.
  destruct q as [| q]; [| lia].
  do 4 (destruct t as [| t]; [vm_compute; split; discriminate |]). lia.
Qed.

Lemma pianoroll_2_events_encodes_runs_witness :
  exists events,
    pianoroll_2_events held_example 0 0 = Ok events /\
    nth 1 events [] = [on_msg 0 4].
Proof.
  destruct (@pianoroll_2_events_encodes_runs held_example 0 held_example_valid)
    as [events [Hret [_ Hnth]]]; [reflexivity | lia |].
  exists events. split; [exact Hret |].
  rewrite Hnth by (simpl; lia). reflexivity.
Defined.

(** X12: adjacent nonzero values of one pitch are one note: for a maximal
    run of nonzero truncated values of pitch [p] over the ticks [a..b-1],
    bucket [a] holds the note-on of [p] whose velocity is the truncated
    mean of the run, and bucket [b], when [b] is a tick of the pianoroll,
    holds the note-off of [p]. *)
Theorem run_becomes_one_note (P : ndarray2 Q) (max_pitch : Z) (p a b : nat) :
  valid_pianoroll P ->
  Z.of_nat (shape0 P) = (max_pitch + 1)%Z -> (max_pitch <= 127)%Z ->
  p < shape0 P -> a < b -> b <= shape1 P ->
  (a = 0 \/ clipped_at P p (a - 1) = 0%Z) ->
  (forall t, a <= t < b -> clipped_at P p t <> 0%Z) ->
  (b < shape1 P -> clipped_at P p b = 0%Z) ->
  exists events,
    pianoroll_2_events P 0 max_pitch = Ok events /\
    In (on_msg (Z.of_nat p)
               (Z.quot (Zsum (map (clipped_at P p) (seq a (b - a))))
                       (Z.of_nat (b - a))))
       (nth a events []) /\
    (b < shape1 P -> In (off_msg (Z.of_nat p)) (nth b events [])).
Proof.
  intros Hvalid Hshape Hmax Hp Hab Hb Hstart Hrun Hend.
  exists (expected_events P).
  split; [apply pianoroll_2_events_ok; [exact Hvalid | lia | exact Hshape] |].
  assert (Hon : forall t, a <= t < b -> on_at P p t = true).
  { intros t Ht. unfold on_at. destruct (Nat.ltb_spec t (shape1 P)); [| lia].
    destruct (Z.eqb_spec (clipped_at P p t) 0) as [H0 | H0]; [| reflexivity].
    exfalso. apply (Hrun t Ht). exact H0. }
  assert (Hoff : on_at P p b = false).
  { unfold on_at. destruct (Nat.ltb_spec b (shape1 P)) as [Hlt | Hge]; [| reflexivity].
    rewrite (Hend Hlt). reflexivity. }
  assert (Hbef : before (on_at P p) a = false).
  { destruct a as [| a']; [reflexivity |]. cbn [before].
    destruct Hstart as [H0 | H0]; [discriminate |].
    replace (S a' - 1) with a' in H0 by lia.
    unfold on_at. rewrite H0. apply andb_false_r. }
  split.
  - rewrite expected_events_nth. destruct (Nat.ltb_spec a (shape1 P)); [| lia].
    apply in_flat_map. exists p. split; [apply in_seq; lia |].
    unfold note_messages, rising. rewrite Hon by lia. rewrite Hbef.
    cbn [andb negb]. left. unfold run_velocity.
    rewrite (@run_length_exact (on_at P p) (b - a) (shape1 P - a) a).
    + reflexivity.
    + lia.
    + intros i Hi. apply Hon. lia.
    + intros _. replace (a + (b - a)) with b by lia. exact Hoff.
  - intros Hlt. rewrite expected_events_nth.
    destruct (Nat.ltb_spec b (shape1 P)); [| lia].
    apply in_flat_map. exists p. split; [apply in_seq; lia |].
    unfold note_messages, rising, falling. rewrite Hoff. cbn [andb negb].
    destruct b as [| b']; [lia |]. cbn [before]. rewrite Hon by lia.
    left. reflexivity.
Qed.

Lemma run_becomes_one_note_witness :
  exists events,
    pianoroll_2_events held_example 0 0 = Ok events /\
    In (on_msg 0 4) (nth 1 events []).
Proof.
  destruct (@run_becomes_one_note held_example 0 0 1 4 held_example_valid)
    as [events [Hret [Hin _]]].
  - reflexivity.
  - lia.
  - simpl. lia.
  - lia.
  - simpl. lia.
  - right. reflexivity.
  - intros t Ht. destruct t as [| t]; [lia |].
    do 3 (destruct t as [| t]; [vm_compute; discriminate |]). lia.
  - simpl. lia.
  - exists events. split; [exact Hret | exact Hin].
Defined.

Lemma note_messages_notes (P : ndarray2 Q) (t : nat) (l : list nat) :
  map note (flat_map (fun p => note_messages P p t) l) =
  map Z.of_nat
      (filter (fun p => rising (on_at P p) t || falling (on_at P p) t) l).
Proof.
  induction l as [| p l IH]; [reflexivity |].
  cbn [flat_map filter]. rewrite map_app, IH. unfold note_messages.
  destruct (rising (on_at P p) t); [reflexivity |].
  destruct (falling (on_at P p) t); reflexivity.
Qed.

(** X13: within a bucket the messages are ordered by pitch, one message
    at most for a pitch: the notes of bucket [t] are, in increasing order,
    the pitches whose state changes at tick [t]. *)
Theorem bucket_ordered_by_pitch (P : ndarray2 Q) (max_pitch : Z) (t : nat) :
  valid_pianoroll P ->
  Z.of_nat (shape0 P) = (max_pitch + 1)%Z -> (max_pitch <= 127)%Z ->
  t < shape1 P ->
  exists events,
    pianoroll_2_events P 0 max_pitch = Ok events /\
    map note (nth t events []) =
    map Z.of_nat
        (filter (fun p => rising (on_at P p) t || falling (on_at P p) t)
                (seq 0 (shape0 P))).
Proof.
  intros Hvalid Hshape Hmax Ht. exists (expected_events P).
  split; [apply pianoroll_2_events_ok; [exact Hvalid | lia | exact Hshape] |].
  rewrite expected_events_nth. destruct (Nat.ltb_spec t (shape1 P)); [| lia].
  apply note_messages_notes.
Qed.

Lemma bucket_ordered_by_pitch_witness :
  exists events,
    pianoroll_2_events held_example 0 0 = Ok events /\
    map note (nth 1 events []) = [0%Z].
Proof.
  destruct (@bucket_ordered_by_pitch held_example 0 1 held_example_valid)
    as [events [Hret Hnotes]]; [reflexivity | lia | simpl; lia |].
  exists events. split; [exact Hret |]. rewrite Hnotes. reflexivity.
Defined.

(** ** Playback *)

Lemma index_ok (A : Type) (l : list A) (i : nat) (d : A) :
  i < length l -> index l i = Ok (nth i l d).
Proof.
  intros Hi. unfold index. rewrite (nth_error_nth' l d Hi). reflexivity.
Qed.

Lemma index_out_of_range (A : Type) (l : list A) (i : nat) :
  length l <= i -> index l i = Raise IndexError.
Proof.
  intros Hi. unfold index. apply nth_error_None in Hi. rewrite Hi. reflexivity.
Qed.

Lemma flat_map_ext_on (A B : Type) (f g : A -> list B) (l : list A) :
  (forall x, In x l -> f x = g x) -> flat_map f l = flat_map g l.
Proof.
  induction l as [| x l IH]; intros H; cbn [flat_map]; [reflexivity |].
  rewrite (H x) by (left; reflexivity).
  rewrite IH by (intros y Hy; apply H; right; exact Hy). reflexivity.
Qed.

Lemma play_tick_ok (events : list (list Message)) (beat tick : nat)
  (track : list TrackMessage) :
  beat * 24 + tick < length events ->
  play_tick events 24 beat track tick =
  Ok (track ++ tick_track events (beat * 24 + tick)).
Proof.
  intros Hlt. unfold play_tick. rewrite (index_ok events [] Hlt). cbn [bind].
  change (mido_Message "note_off" 0 0 16) with (Ok (mkMessage "note_off" 0 0 16)).
  cbn [bind]. unfold tick_track. rewrite app_assoc. reflexivity.
Qed.

Lemma play_beat_ok (events : list (list Message)) (beat n : nat) :
  forall s track,
    beat * 24 + s + n <= length events ->
    for_each (play_tick events 24 beat) (seq s n) track =
    Ok (track ++ flat_map (tick_track events) (seq (beat * 24 + s) n)).
Proof.
  induction n as [| n IH]; intros s track Hlen.
  - cbn [seq for_each flat_map]. rewrite app_nil_r. reflexivity.
  - cbn [seq for_each flat_map]. rewrite play_tick_ok by lia. cbn [bind].
    rewrite IH by lia. rewrite <- app_assoc.
    replace (beat * 24 + S s) with (S (beat * 24 + s)) by lia. reflexivity.
Qed.

Lemma play_beat_out_of_range (events : list (list Message)) (beat n : nat) :
  forall s track,
    0 < n -> length events < beat * 24 + s + n ->
    for_each (play_tick events 24 beat) (seq s n) track = Raise IndexError.
Proof.
  induction n as [| n IH]; intros s track Hn Hlen; [lia |].
  cbn [seq for_each].
  destruct (Nat.lt_ge_cases (beat * 24 + s) (length events)) as [Hin | Hout].
  - rewrite play_tick_ok by exact Hin. cbn [bind]. apply IH; lia.
  - unfold play_tick. rewrite index_out_of_range by exact Hout. reflexivity.
Qed.

Lemma play_midi_events_ok (timidity : list TrackMessage -> Z)
  (events : list (list Message)) :
  96 <= length events ->
  play_midi_events timidity events =
  Ok (timidity (flat_map (tick_track events) (seq 0 96))).
Proof.
  intros Hlen. unfold play_midi_events. cbv zeta.
  change (seq 0 4) with [0; 1; 2; 3]. cbn [for_each].
  rewrite (@play_beat_ok events 0 24 0) by lia. cbn [bind].
  rewrite (@play_beat_ok events 1 24 0) by lia. cbn [bind].
  rewrite (@play_beat_ok events 2 24 0) by lia. cbn [bind].
  rewrite (@play_beat_ok events 3 24 0) by lia. cbn [bind].
  cbn [app]. rewrite <- !app_assoc, <- !flat_map_app. reflexivity.
Qed.

(** X14: [play_midi_events] reads the buckets of four beats of 24 ticks:
    with fewer than 96 buckets it raises [IndexError], whatever the
    buckets hold, before anything reaches the synthesizer. *)
Theorem play_midi_events_needs_four_beats (timidity : list TrackMessage -> Z)
  (events : list (list Message)) :
  length events < 96 -> play_midi_events timidity events = Raise IndexError.
Proof.
  intros Hlen. unfold play_midi_events. cbv zeta.
  change (seq 0 4) with [0; 1; 2; 3]. cbn [for_each].
  destruct (Nat.lt_ge_cases (length events) 24) as [H1 | H1].
  { rewrite (@play_beat_out_of_range events 0 24 0) by lia. reflexivity. }
  rewrite (@play_beat_ok events 0 24 0) by lia. cbn [bind].
  destruct (Nat.lt_ge_cases (length events) 48) as [H2 | H2].
  { rewrite (@play_beat_out_of_range events 1 24 0) by lia. reflexivity. }
  rewrite (@play_beat_ok events 1 24 0) by lia. cbn [bind].
  destruct (Nat.lt_ge_cases (length events) 72) as [H3 | H3].
  { rewrite (@play_beat_out_of_range events 2 24 0) by lia. reflexivity. }
  rewrite (@play_beat_ok events 2 24 0) by lia. cbn [bind].
  rewrite (@play_beat_out_of_range events 3 24 0) by lia. reflexivity.
Qed.

Lemma play_midi_events_needs_four_beats_witness :
  play_midi_events (fun _ => 0%Z) [[on_msg 60 100]; []] = Raise IndexError.
Proof.
  apply play_midi_events_needs_four_beats. simpl. lia.
Defined.

(** X15: with at least 96 buckets, the track handed to the synthesizer
    holds, for each of the first 96 ticks in order, the tick's messages
    re-sent on channel 5 with time 0, followed by one silent [note_off] of
    16 time units; the buckets from tick 96 on are ignored. *)
Theorem play_midi_events_track (timidity : list TrackMessage -> Z)
  (events : list (list Message)) :
  96 <= length events ->
  play_midi_events timidity events =
  Ok (timidity (flat_map (tick_track events) (seq 0 96))) /\
  play_midi_events timidity (firstn 96 events) = play_midi_events timidity events.
Proof.
  intros Hlen. split; [apply play_midi_events_ok; exact Hlen |].
  rewrite !play_midi_events_ok by (rewrite ?length_firstn; lia).
  f_equal. f_equal. apply flat_map_ext_on. intros t Ht. apply in_seq in Ht.
  unfold tick_track. rewrite nth_firstn.
  destruct (Nat.ltb_spec t 96); [reflexivity | lia].
Qed.

Lemma play_midi_events_track_witness :
  play_midi_events (fun track => Z.of_nat (length track))
                   ([on_msg 60 100] :: repeat [] 100) =
  Ok 97%Z.
Proof.
  destruct (@play_midi_events_track (fun track => Z.of_nat (length track))
              ([on_msg 60 100] :: repeat [] 100)) as [Hret _].
  - simpl. lia.
  - rewrite Hret. reflexivity.
Defined.

(** X16: [play_pianoroll_events] cannot play a pianoroll of fewer than 96
    ticks: the conversion to events succeeds and the playback raises
    [IndexError]; with 96 ticks or more it returns the synthesizer's exit
    code. *)
Theorem play_pianoroll_events_needs_four_beats (timidity : list TrackMessage -> Z)
  (P : ndarray2 Q) (max_pitch : Z) :
  valid_pianoroll P ->
  Z.of_nat (shape0 P) = (max_pitch + 1)%Z -> (max_pitch <= 127)%Z ->
  (shape1 P < 96 ->
   play_pianoroll_events timidity P 0 max_pitch = Raise IndexError) /\
  (96 <= shape1 P ->
   play_pianoroll_events timidity P 0 max_pitch =
   Ok (timidity (flat_map (tick_track (expected_events P)) (seq 0 96)))).
Proof.
  intros Hvalid Hshape Hmax. unfold play_pianoroll_events.
  rewrite (@pianoroll_2_events_ok P Hvalid ltac:(lia) _ Hshape). cbn [bind].
  assert (Hlen : length (expected_events P) = shape1 P)
    by (unfold expected_events; rewrite length_map, length_seq; reflexivity).
  split; intros HT.
  - apply play_midi_events_needs_four_beats. lia.
  - apply play_midi_events_ok. lia.
Qed.

Lemma play_pianoroll_events_needs_four_beats_witness :
  play_pianoroll_events (fun _ => 0%Z) held_example 0 0 = Raise IndexError.
Proof.
  destruct (@play_pianoroll_events_needs_four_beats (fun _ => 0%Z) held_example 0
              held_example_valid) as [Hshort _]; [reflexivity | lia |].
  apply Hshort. simpl. lia.
Defined.

(** X17: [play_pianoroll] cannot play a pianoroll cropped from pitch 0
    unless it is the full range: with [min_pitch = 0] and
    [max_pitch <> 127] the padding raises before anything is written or
    played. *)
Theorem play_pianoroll_from_pitch_zero
  (write_and_play : ndarray2 Q -> Q -> Z -> result Z)
  (P : ndarray2 Q) (max_pitch : Z) (bpm : Q) (beat_resolution : Z) :
  max_pitch <> 127%Z ->
  play_pianoroll write_and_play P 0 max_pitch bpm beat_resolution =
  Raise (if (Z.of_nat (shape1 P) =? max_pitch + 1)%Z
         then ValueError else AssertionError).
Proof.
  intros Hmax. unfold play_pianoroll.
  destruct (Z.eqb_spec max_pitch 127) as [H127 | H127]; [contradiction |].
  cbn [Z.eqb negb orb]. unfold pad_pianoroll.
  replace (max_pitch - 0 + 1)%Z with (max_pitch + 1)%Z by lia.
  destruct (Z.of_nat (shape1 P) =? max_pitch + 1)%Z; cbn [assert bind];
    [| reflexivity].
  rewrite zeros_negative by lia. reflexivity.
Qed.

Lemma play_pianoroll_from_pitch_zero_witness :
  play_pianoroll (fun _ _ _ => Ok 0%Z) three_pitches 0 2 120%Q 24 = Raise ValueError.
Proof.
  rewrite (@play_pianoroll_from_pitch_zero (fun _ _ _ => Ok 0%Z) three_pitches 2
             120%Q 24); [reflexivity | lia].
Defined.

(** X18: with [min_pitch >= 1], what [play_pianoroll] writes and plays is
    the pianoroll padded to 128 pitches with every pitch one semitone low:
    input column [p] sits at column [min_pitch - 1 + p]. *)
Theorem play_pianoroll_one_semitone_low
  (write_and_play : ndarray2 Q -> Q -> Z -> result Z)
  (P : ndarray2 Q) (min_pitch max_pitch : Z) (bpm : Q) (beat_resolution : Z) :
  (1 <= min_pitch)%Z -> (max_pitch <= 127)%Z ->
  Z.of_nat (shape1 P) = (max_pitch - min_pitch + 1)%Z ->
  exists padded,
    play_pianoroll write_and_play P min_pitch max_pitch bpm beat_resolution =
    write_and_play padded bpm beat_resolution /\
    shape0 padded = shape0 P /\ shape1 padded = 128 /\
    forall t p, t < shape0 P -> p < shape1 P ->
      get2 0%Q padded t (Z.to_nat (min_pitch - 1) + p) = get2 0%Q P t p.
Proof.
  intros Hmin Hmax Hshape. unfold play_pianoroll.
  destruct (Z.eqb_spec min_pitch 0) as [H0 | H0]; [lia |]. cbn [negb orb].
  rewrite pad_pianoroll_ok by lia. cbn [bind].
  eexists. split; [reflexivity |]. split; [reflexivity |]. split; [reflexivity |].
  intros t p Ht Hp. rewrite get2_tab2 by lia.
  destruct (Nat.ltb_spec (Z.to_nat (min_pitch - 1) + p)
                         (Z.to_nat (min_pitch - 1) + shape1 P)); [| lia].
  destruct (Nat.ltb_spec (Z.to_nat (min_pitch - 1) + p) (Z.to_nat (min_pitch - 1)));
    [lia |].
  f_equal. lia.
Qed.

Lemma play_pianoroll_one_semitone_low_witness :
  exists padded,
    play_pianoroll (fun _ _ _ => Ok 0%Z) three_pitches 60 62 120%Q 24 = Ok 0%Z /\
    shape1 padded = 128 /\ get2 0%Q padded 0 59 = 1%Q.
Proof.
  destruct (@play_pianoroll_one_semitone_low (fun _ _ _ => Ok 0%Z) three_pitches
              60 62 120%Q 24) as [padded [Hret [_ [Hw Hget]]]];
    [lia | lia | reflexivity |].
  exists padded. split; [exact Hret |]. split; [exact Hw |].
  apply (Hget 0 0); simpl; lia.
Defined.

(** ** [plot_pianoroll] *)

Lemma arange_step_one (lo hi k : Z) :
  In k (arange lo hi 1) <-> (lo <= k < hi)%Z.
Proof.
  unfold arange. rewrite in_map_iff. split.
  - intros [i [<- Hi]]. apply in_seq in Hi.
    replace (hi - lo + 1 - 1)%Z with (hi - lo)%Z in Hi by lia.
    rewrite Z.div_1_r in Hi. lia.
  - intros Hk. exists (Z.to_nat (k - lo)). split; [lia |].
    apply in_seq. replace (hi - lo + 1 - 1)%Z with (hi - lo)%Z by lia.
    rewrite Z.div_1_r. lia.
Qed.

Lemma NoDup_map_injective (A B : Type) (f : A -> B) (l : list A) :
  (forall x y, f x = f y -> x = y) -> NoDup l -> NoDup (map f l).
Proof.
  intros Hinj Hl. induction Hl as [| x l Hx Hl IH]; cbn [map]; constructor.
  - intros Hin. apply in_map_iff in Hin. destruct Hin as [y [Hy Hin]].
    apply Hinj in Hy. subst y. contradiction.
  - exact IH.
Qed.

Lemma pitch_ticks_octaves (min_pitch max_pitch : Z) :
  let lowest_octave := ((min_pitch - 1) / 12 + 1 - 2)%Z in
  let highest_octave := (max_pitch / 12 - 2)%Z in
  map (fun c => (c - min_pitch)%Z)
      (arange ((lowest_octave + 2) * 12) (max_pitch + 1) 12) =
  map (fun k => (12 * (k + 2) - min_pitch)%Z)
      (arange lowest_octave (highest_octave + 1) 1).
Proof.
  intros lowest_octave highest_octave. unfold arange. rewrite !map_map.
  assert (Hcount :
    ((max_pitch + 1 - (lowest_octave + 2) * 12 + 12 - 1) / 12 =
     (highest_octave + 1 - lowest_octave + 1 - 1) / 1)%Z).
  { rewrite Z.div_1_r.
    replace (max_pitch + 1 - (lowest_octave + 2) * 12 + 12 - 1)%Z
      with (max_pitch + (- (lowest_octave + 1)) * 12)%Z by lia.
    rewrite Z.div_add by lia. unfold highest_octave. lia. }
  rewrite Hcount. apply map_ext. intros i. lia.
Qed.

(** X19: on a pianoroll of the asserted width, [plot_pianoroll] first
    draws the image and names the pitch axis, then puts one tick on the
    row of every pitch C (a multiple of 12) between [min_pitch] and
    [max_pitch], and no other, and labels the ticks, in the same order,
    with the octaves of those pitches ([C-2] for pitch 0). *)
Theorem plot_pianoroll_labels_every_C (ax : list AxCall) (P : ndarray2 Q)
  (min_pitch max_pitch : Z) (beat_resolution : option Z) (cmap : string) :
  Z.of_nat (shape1 P) = (max_pitch - min_pitch + 1)%Z ->
  exists (octaves : list Z) (rest : list AxCall),
    fst (plot_pianoroll ax P min_pitch max_pitch beat_resolution cmap) =
    ax ++ [imshow (transpose 0%Q P) cmap;
           set_ylabel "pitch";
           set_yticks (map (fun k => (12 * (k + 2) - min_pitch)%Z) octaves);
           set_yticklabels (map octave_label octaves);
           set_xlabel "ticks"] ++ rest /\
    NoDup octaves /\
    forall k, In k octaves <-> (min_pitch <= 12 * (k + 2) <= max_pitch)%Z.
Proof.
  intros Hshape.
  exists (arange ((min_pitch - 1) / 12 + 1 - 2) (max_pitch / 12 - 2 + 1) 1).
  assert (Hcalls : forall rest,
    (((((ax ++ [imshow (transpose 0%Q P) cmap]) ++ [set_ylabel "pitch"]) ++
        [set_yticks
           (map (fun c => (c - min_pitch)%Z)
                (arange (((min_pitch - 1) / 12 + 1 - 2 + 2) * 12) (max_pitch + 1) 12))]) ++
       [set_yticklabels
          (map octave_label
               (arange ((min_pitch - 1) / 12 + 1 - 2) (max_pitch / 12 - 2 + 1) 1))]) ++
      [set_xlabel "ticks"]) ++ rest =
    ax ++ [imshow (transpose 0%Q P) cmap;
           set_ylabel "pitch";
           set_yticks (map (fun k => (12 * (k + 2) - min_pitch)%Z)
                           (arange ((min_pitch - 1) / 12 + 1 - 2)
                                   (max_pitch / 12 - 2 + 1) 1));
           set_yticklabels
             (map octave_label
                  (arange ((min_pitch - 1) / 12 + 1 - 2) (max_pitch / 12 - 2 + 1) 1));
           set_xlabel "ticks"] ++ rest).
  { intros rest. rewrite (pitch_ticks_octaves min_pitch max_pitch).
    rewrite <- !app_assoc. reflexivity. }
  assert (Hrest : exists rest,
    fst (plot_pianoroll ax P min_pitch max_pitch beat_resolution cmap) =
    (((((ax ++ [imshow (transpose 0%Q P) cmap]) ++ [set_ylabel "pitch"]) ++
        [set_yticks
           (map (fun c => (c - min_pitch)%Z)
                (arange (((min_pitch - 1) / 12 + 1 - 2 + 2) * 12) (max_pitch + 1) 12))]) ++
       [set_yticklabels
          (map octave_label
               (arange ((min_pitch - 1) / 12 + 1 - 2) (max_pitch / 12 - 2 + 1) 1))]) ++
      [set_xlabel "ticks"]) ++ rest).
  { unfold plot_pianoroll. rewrite Hshape, Z.eqb_refl. cbn [negb]. cbv zeta.
    set (pre := ((((ax ++ _) ++ _) ++ _) ++ _) ++ [set_xlabel "ticks"]).
    destruct beat_resolution as [br |].
    - destruct (py_floordiv (Z.of_nat (shape0 P)) br) as [num_beat | e]; cbn [fst].
      + rewrite <- !app_assoc. cbn [app]. eexists. reflexivity.
      + exists []. rewrite app_nil_r. reflexivity.
    - cbn [fst]. exists [grid]. reflexivity. }
  destruct Hrest as [rest Hrest]. exists rest.
  split; [rewrite Hrest; apply Hcalls |].
  split.
  - unfold arange. apply NoDup_map_injective; [| apply seq_NoDup].
    intros i j Hij. lia.
  - intros k. rewrite arange_step_one.
    pose proof (Z.div_mod (min_pitch - 1) 12 ltac:(lia)) as Hmin.
    pose proof (Z.mod_pos_bound (min_pitch - 1) 12 ltac:(lia)) as Hminr.
    pose proof (Z.div_mod max_pitch 12 ltac:(lia)) as Hmax.
    pose proof (Z.mod_pos_bound max_pitch 12 ltac:(lia)) as Hmaxr.
    lia.
Qed.

Lemma plot_pianoroll_labels_every_C_witness :
  exists rest,
    fst (plot_pianoroll [] three_pitches 59 61 None "Blues") =
    [imshow (transpose 0%Q three_pitches) "Blues"; set_ylabel "pitch";
     set_yticks [1%Z]; set_yticklabels ["C3"%string]; set_xlabel "ticks"] ++ rest.
Proof.
  destruct (@plot_pianoroll_labels_every_C [] three_pitches 59 61 None "Blues" eq_refl)
    as [octaves [rest [Hcalls _]]].
  assert (Hrun : fst (plot_pianoroll [] three_pitches 59 61 None "Blues") =
                 [imshow (transpose 0%Q three_pitches) "Blues"; set_ylabel "pitch";
                  set_yticks [1%Z]; set_yticklabels ["C3"%string];
                  set_xlabel "ticks"; grid]) by reflexivity.
  pose proof Hcalls as Hlists. rewrite Hrun in Hlists. cbn [app] in Hlists.
  injection Hlists as Ht Hl _.
  exists rest. rewrite Hcalls. cbn [app].
  repeat f_equal; first [ symmetry; exact Ht | symmetry; exact Hl ].
Defined.

Lemma arange_from_one (n : Z) :
  arange 1 (1 + n) 1 = map (fun i => (1 + i)%Z) (arange 0 n 1).
Proof.
  unfold arange. rewrite map_map.
  replace (1 + n - 1 + 1 - 1)%Z with (n - 0 + 1 - 1)%Z by lia.
  apply map_ext. intros i. lia.
Qed.

Lemma plot_pianoroll_plain (ax : list AxCall) (P : ndarray2 Q)
  (min_pitch max_pitch : Z) (cmap : string) :
  Z.of_nat (shape1 P) = (max_pitch - min_pitch + 1)%Z ->
  removelast (fst (plot_pianoroll ax P min_pitch max_pitch None cmap)) =
  ((((ax ++ [imshow (transpose 0%Q P) cmap]) ++ [set_ylabel "pitch"]) ++
    [set_yticks
       (map (fun c => (c - min_pitch)%Z)
            (arange (((min_pitch - 1) / 12 + 1 - 2 + 2) * 12) (max_pitch + 1) 12))]) ++
   [set_yticklabels
      (map octave_label
           (arange ((min_pitch - 1) / 12 + 1 - 2) (max_pitch / 12 - 2 + 1) 1))]) ++
  [set_xlabel "ticks"].
Proof.
  intros Hshape. unfold plot_pianoroll. rewrite Hshape, Z.eqb_refl.
  cbn [negb fst]. cbv zeta. apply removelast_last.
Qed.

(** X20: beat lines.  With a positive [beat_resolution], after the calls
    of a plot without beat lines (its final [grid] apart),
    [plot_pianoroll] puts an unlabelled major tick at the start of every
    whole beat of the pianoroll and a minor tick, labelled with the beat
    number counted from 1, at its middle; a trailing partial beat gets
    neither.  With [beat_resolution = 0] it raises [ZeroDivisionError],
    leaving the axes as for a plot without beat lines and without grid. *)
Theorem plot_pianoroll_beat_lines (ax : list AxCall) (P : ndarray2 Q)
  (min_pitch max_pitch br : Z) (cmap : string) :
  Z.of_nat (shape1 P) = (max_pitch - min_pitch + 1)%Z ->
  let plain := removelast (fst (plot_pianoroll ax P min_pitch max_pitch None cmap)) in
  (br = 0%Z ->
   plot_pianoroll ax P min_pitch max_pitch (Some br) cmap =
   (plain, Raise ZeroDivisionError)) /\
  ((0 < br)%Z ->
   exists beats : list Z,
     plot_pianoroll ax P min_pitch max_pitch (Some br) cmap =
     (plain ++
      [set_xticks (map (fun i => inject_Z (br * i)) beats) false;
       set_xticklabels [] false;
       set_xticks (map (fun i => Qmult (inject_Z br) (Qplus (1 # 2) (inject_Z i)))
                       beats) true;
       set_xticklabels (map (fun i => (1 + i)%Z) beats) true;
       tick_params; set_xlabel "beats"; grid],
      Ok tt) /\
     NoDup beats /\
     forall i, In i beats <-> (0 <= i /\ br * (i + 1) <= Z.of_nat (shape0 P))%Z).
Proof.
  intros Hshape plain. subst plain.
  rewrite plot_pianoroll_plain by exact Hshape.
  split.
  - intros ->. unfold plot_pianoroll. rewrite Hshape, Z.eqb_refl. reflexivity.
  - intros Hpos. exists (arange 0 (Z.of_nat (shape0 P) / br) 1).
    split; [| split].
    + unfold plot_pianoroll. rewrite Hshape, Z.eqb_refl. cbn [negb]. cbv zeta.
      unfold py_floordiv. destruct (Z.eqb_spec br 0); [lia |].
      rewrite arange_from_one. rewrite <- !app_assoc. reflexivity.
    + unfold arange. apply NoDup_map_injective; [| apply seq_NoDup].
      intros i j Hij. lia.
    + intros i. rewrite arange_step_one.
      pose proof (Z.div_mod (Z.of_nat (shape0 P)) br ltac:(lia)) as Hdiv.
      pose proof (Z.mod_pos_bound (Z.of_nat (shape0 P)) br Hpos) as Hrem.
      nia.
Qed.

Lemma plot_pianoroll_beat_lines_witness :
  plot_pianoroll [] three_pitches 59 61 (Some 3%Z) "Blues" =
  ([imshow (transpose 0%Q three_pitches) "Blues"; set_ylabel "pitch";
    set_yticks [1%Z]; set_yticklabels ["C3"%string]; set_xlabel "ticks";
    set_xticks [0%Q] false; set_xticklabels [] false;
    set_xticks [Qmult 3 (Qplus (1 # 2) 0)] true; set_xticklabels [1%Z] true;
    tick_params; set_xlabel "beats"; grid], Ok tt) /\
  plot_pianoroll [] three_pitches 59 61 (Some 0%Z) "Blues" =
  ([imshow (transpose 0%Q three_pitches) "Blues"; set_ylabel "pitch";
    set_yticks [1%Z]; set_yticklabels ["C3"%string]; set_xlabel "ticks"],
   Raise ZeroDivisionError).
Proof.
  destruct (@plot_pianoroll_beat_lines [] three_pitches 59 61 3 "Blues" eq_refl)
    as [_ Hpos].
  destruct (@plot_pianoroll_beat_lines [] three_pitches 59 61 0 "Blues" eq_refl)
    as [Hzero _].
  split.
  - destruct (Hpos eq_refl) as [beats [Hret _]]. reflexivity.
  - rewrite (Hzero eq_refl). reflexivity.
Defined.
